(** * Quote Studio: text layout and compositing core

    A shallow embedding of [quote_studio.py]: the word wrapper, the multiline
    measurer, the layout composer, the bounds clamper and hit tester, the
    style filter and the recompute pass, with the properties of each. *)

From Stdlib Require Import String Ascii.
From Stdlib Require Import ZArith NArith Lia Bool List.
Import ListNotations.
Open Scope Z_scope.

(** ** Python strings

    A Python [str] is a sequence of Unicode code points. *)

Module PyStr.

Definition char := N.
Definition str := list char.

(** [str.isspace] on one code point: the characters [str.split] and
    [str.strip] treat as whitespace. *)
Definition isspace (c : char) : bool :=
  (((9 <=? c) && (c <=? 13)) || ((28 <=? c) && (c <=? 32))
   || (c =? 133) || (c =? 160) || (c =? 5760)
   || ((8192 <=? c) && (c <=? 8202))
   || (c =? 8232) || (c =? 8233) || (c =? 8239) || (c =? 8287)
   || (c =? 12288))%N.

(** An ASCII literal as a [str]. *)
Definition lit (s : string) : str :=
  map N_of_ascii (list_ascii_of_string s).

Definition space : str := [32%N].

(** Truthiness of a string: [if s:] holds for the non-empty ones. *)
Definition truthy (s : str) : bool :=
  match s with [] => false | _ :: _ => true end.

Definition eqb (a b : str) : bool :=
  if list_eq_dec N.eq_dec a b then true else false.

(** [text.split()]: maximal runs of non-whitespace characters.  [cur] is the
    word being scanned. *)
Fixpoint split_aux (cur : str) (s : str) : list str :=
  match s with
  | [] => if truthy cur then [cur] else []
  | c :: s' =>
      if isspace c
      then (if truthy cur then cur :: split_aux [] s' else split_aux [] s')
      else split_aux (cur ++ [c]) s'
  end.

Definition split (s : str) : list str := split_aux [] s.

Fixpoint lstrip (s : str) : str :=
  match s with
  | [] => []
  | c :: s' => if isspace c then lstrip s' else s
  end.

Definition rstrip (s : str) : str := rev (lstrip (rev s)).

(** [s.strip()] *)
Definition strip (s : str) : str := rstrip (lstrip s).

(** [sep.join(parts)] *)
Fixpoint join (sep : str) (parts : list str) : str :=
  match parts with
  | [] => []
  | [p] => p
  | p :: rest => p ++ sep ++ join sep rest
  end.

End PyStr.

Import PyStr.

(** ** Fonts

    The font engine is an external collaborator.  What the program uses of it
    is [draw.textbbox((0, 0), s, font=font, align="left")], the pixel bounding
    box [(left, top, right, bottom)] of a run of text. *)

Definition bbox := (Z * Z * Z * Z)%type.

Record Font := mkFont { textbbox : str -> bbox }.

(** [bbox[2] - bbox[0]] *)
Definition text_width (font : Font) (s : str) : Z :=
  let '(l, _, r, _) := textbbox font s in r - l.

(** [bbox[3] - bbox[1]] *)
Definition text_height (font : Font) (s : str) : Z :=
  let '(_, t, _, b) := textbbox font s in b - t.

(** The boxes a font engine reports have their right edge not left of the
    left one and their bottom edge not above the top one. *)
Definition font_wf (font : Font) : Prop :=
  forall s, 0 <= text_width font s /\ 0 <= text_height font s.

(** A fixed-pitch test font: every glyph is 10 pixels wide, every non-empty
    run 20 pixels high. *)
Definition mono_font : Font :=
  mkFont (fun s => (0, 0, 10 * Z.of_nat (length s),
                    if truthy s then 20 else 0)).

(** ** Text wrapper *)

(** The state of the loop of [wrap_text]: the lines flushed so far and the
    line being filled. *)
Definition wrap_state := (list str * str)%type.

(** One iteration of [for w in words]. *)
Definition wrap_step (font : Font) (max_width : Z)
    (st : wrap_state) (w : str) : wrap_state :=
  let '(lines, line) := st in
  let test := if eqb line [] then w else line ++ space ++ w in
  if text_width font test <=? max_width
  then (lines, test)
  else ((if truthy line then lines ++ [line] else lines), w).

Definition wrap_loop (font : Font) (max_width : Z)
    (words : list str) (st : wrap_state) : wrap_state :=
  fold_left (wrap_step font max_width) words st.

(** [lines = []] and [line = ""] *)
Definition wrap_init : wrap_state := ([], []).

(** [wrap_text(text, font, draw, max_width)]; the drawing context only
    carries the measurement and is folded into [font]. *)
Definition wrap_text (text : str) (font : Font) (max_width : Z) : list str :=
  if negb (truthy text) then []
  else
    let '(lines, line) := wrap_loop font max_width (split text) wrap_init in
    if truthy line then lines ++ [line] else lines.

(** ** Multiline measurer *)

(** [sum(xs)] *)
Definition py_sum (xs : list Z) : Z := fold_left Z.add xs 0.

(** One iteration of [for ln in lines]: the state is [(width, line_heights)]. *)
Definition measure_step (font : Font) (st : Z * list Z) (ln : str)
    : Z * list Z :=
  let '(width, line_heights) := st in
  (Z.max width (text_width font ln), line_heights ++ [text_height font ln]).

Definition measure_multiline (lines : list str) (font : Font)
    (line_spacing : Z) : Z * Z * list Z :=
  let '(width, line_heights) := fold_left (measure_step font) lines (0, []) in
  let height :=
    match line_heights with
    | [] => 0
    | _ :: _ =>
        py_sum line_heights
        + line_spacing * (Z.of_nat (length line_heights) - 1)
    end in
  (width, height, line_heights).

(** ** Binary floating point

    The program multiplies integers by the constants [0.25], [0.6] and
    [1 - 2 * 0.05] and truncates with [int].  A finite binary64 value is
    [mant * 2 ^ expo]; every operation computes the exact result and rounds
    it to 53 significant bits, ties to even.  Overflow and subnormal results
    are out of reach of the pixel quantities computed here. *)

Module Float.

Record float := mk { mant : Z; expo : Z }.

Definition round53 (m e : Z) : float :=
  let a := Z.abs m in
  let n := Z.log2 a + 1 in
  if n <=? 53 then mk m e
  else
    let sh := n - 53 in
    let q := Z.shiftr a sh in
    let r := a - Z.shiftl q sh in
    let half := Z.shiftl 1 (sh - 1) in
    let q' := if (half <? r) || ((r =? half) && Z.odd q) then q + 1 else q in
    mk (Z.sgn m * q') (e + sh).

(** [float(n)] *)
Definition of_int (n : Z) : float := round53 n 0.

Definition mul (a b : float) : float :=
  round53 (mant a * mant b) (expo a + expo b).

Definition sub (a b : float) : float :=
  let e := Z.min (expo a) (expo b) in
  round53 (mant a * 2 ^ (expo a - e) - mant b * 2 ^ (expo b - e)) e.

(** [int(x)]: truncation toward zero. *)
Definition to_int (a : float) : Z :=
  if 0 <=? expo a then mant a * 2 ^ expo a
  else Z.quot (mant a) (2 ^ (- expo a)).

(** The literals of the program, as the nearest binary64 values. *)
Definition f0_25 : float := mk 1 (-2).
Definition f0_6 : float := mk 5404319552844595 (-53).
Definition f0_05 : float := mk 3602879701896397 (-56).
Definition f1_5 : float := mk 3 (-1).
Definition f1_6 : float := mk 3602879701896397 (-51).
Definition f1_2 : float := mk 5404319552844595 (-52).
Definition f1_1 : float := mk 2476979795053773 (-51).
Definition f0_75 : float := mk 3 (-2).
Definition f0_2 : float := mk 3602879701896397 (-54).

(** [int(n * c)] for an integer [n] and a float [c]. *)
Definition int_mul (n : Z) (c : float) : Z := to_int (mul (of_int n) c).

End Float.

(** ** Rasters

    An image has a size and a band layout; channel values are 8-bit. *)

Inductive mode := L | RGB | RGBA.

Inductive raster :=
  | PxL (px : list Z)
  | PxRGB (px : list (Z * Z * Z))
  | PxRGBA (px : list (Z * Z * Z * Z)).

Record Image := mkImage { width : Z; height : Z; pixels : raster }.

Definition size (img : Image) : Z * Z := (width img, height img).

Definition img_mode (img : Image) : mode :=
  match pixels img with
  | PxL _ => L
  | PxRGB _ => RGB
  | PxRGBA _ => RGBA
  end.

(** The luma transform of the imaging library's RGB to L conversion:
    [(r * 19595 + g * 38470 + b * 7471 + 0x8000) >> 16], stored in 8 bits. *)
Definition rgb2l (p : Z * Z * Z) : Z :=
  let '(r, g, b) := p in
  Z.shiftr (r * 19595 + g * 38470 + b * 7471 + 32768) 16 mod 256.

Definition l2rgb (l : Z) : Z * Z * Z := (l, l, l).

Definition rgba2rgb (p : Z * Z * Z * Z) : Z * Z * Z :=
  let '(r, g, b, _) := p in (r, g, b).

(** [img.convert("RGB")] *)
Definition convert_RGB (img : Image) : Image :=
  mkImage (width img) (height img)
    (match pixels img with
     | PxL px => PxRGB (map l2rgb px)
     | PxRGB px => PxRGB px
     | PxRGBA px => PxRGB (map rgba2rgb px)
     end).

(** [img.convert("L")], which is what [ImageOps.grayscale] does. *)
Definition grayscale (img : Image) : Image :=
  mkImage (width img) (height img)
    (match pixels img with
     | PxL px => PxL px
     | PxRGB px => PxL (map rgb2l px)
     | PxRGBA px => PxL (map (fun p => rgb2l (rgba2rgb p)) px)
     end).

(** [Image.new("RGB", size, color)] *)
Definition new_RGB (sz : Z * Z) (color : Z * Z * Z) : Image :=
  mkImage (fst sz) (snd sz)
    (PxRGB (repeat color (Z.to_nat (fst sz * snd sz)))).

(** [r, g, b = img.split()] followed by [Image.merge("RGB", (b, g, r))] on
    an RGB image. *)
Definition swap_red_blue (img : Image) : Image :=
  mkImage (width img) (height img)
    (match pixels img with
     | PxRGB px => PxRGB (map (fun '(r, g, b) => (b, g, r)) px)
     | other => other
     end).

(** ** Exceptions

    A raised exception is an instance of some class; [except Exception]
    catches those that derive from [Exception]. *)

Record exn := mkExn { is_Exception : bool; message : str }.

Definition result (A : Type) : Type := (exn + A)%type.

Definition rbind {A B} (r : result A) (k : A -> result B) : result B :=
  match r with
  | inl e => inl e
  | inr a => k a
  end.

Notation "x <-? r ;; k" := (rbind r (fun x => k))
  (at level 61, r at next level, right associativity).

(** ** The imaging library

    The enhancement and filter operations the style filter and the renderer
    call.  Each may raise. *)

Record PIL := mkPIL {
  (** [ImageEnhance.Contrast(img).enhance(f)] *)
  Contrast_enhance : Image -> Float.float -> result Image;
  (** [ImageEnhance.Color(img).enhance(f)] *)
  Color_enhance : Image -> Float.float -> result Image;
  (** [ImageEnhance.Brightness(img).enhance(f)] *)
  Brightness_enhance : Image -> Float.float -> result Image;
  (** [img.filter(ImageFilter.GaussianBlur(radius=r))] *)
  GaussianBlur : Image -> Z -> result Image;
  (** [img.filter(ImageFilter.UnsharpMask(radius, percent, threshold))] *)
  UnsharpMask : Image -> Z -> Z -> Z -> result Image;
  (** [Image.blend(a, b, alpha)] *)
  blend : Image -> Image -> Float.float -> result Image;
  (** [ImageDraw.Draw(img).text(xy, s, font=font, fill=fill)] *)
  draw_text : Image -> Z * Z -> str -> Font -> Z * Z * Z -> result Image;
  (** [pil_to_qpixmap(img)] *)
  pil_to_qpixmap : Image -> result Image
}.

(** The contract of the enhancement and filter operations: on every image
    they return an image of the same size and mode, and [blend] does so on
    two images of the same size and mode. *)
Definition preserves (f : Image -> result Image) : Prop :=
  forall img, exists out,
    f img = inr out /\ size out = size img /\ img_mode out = img_mode img.

Record PIL_contract (lib : PIL) : Prop := mkContract {
  Contrast_ok : forall f, preserves (fun img => Contrast_enhance lib img f);
  Color_ok : forall f, preserves (fun img => Color_enhance lib img f);
  Brightness_ok : forall f, preserves (fun img => Brightness_enhance lib img f);
  GaussianBlur_ok : forall r, preserves (fun img => GaussianBlur lib img r);
  UnsharpMask_ok :
    forall r p t, preserves (fun img => UnsharpMask lib img r p t);
  blend_ok : forall a b f,
    size a = size b -> img_mode a = img_mode b ->
    exists out,
      blend lib a b f = inr out /\ size out = size a
      /\ img_mode out = img_mode a
}.

(** ** Style filter *)

Definition apply_style (lib : PIL) (background : Image) (style_name : str)
    : result Image :=
  let img := convert_RGB background in
  if eqb style_name (lit "None") then inr img
  else if eqb style_name (lit "Epic") then
    img <-? Contrast_enhance lib img Float.f1_5 ;;
    GaussianBlur lib img 3
  else if eqb style_name (lit "Noir") then
    inr (convert_RGB (grayscale img))
  else if eqb style_name (lit "Fancy") then
    Color_enhance lib img Float.f1_6
  else if eqb style_name (lit "Cyberpunk") then
    let img := swap_red_blue img in
    img <-? Color_enhance lib img Float.f1_2 ;;
    Contrast_enhance lib img Float.f1_1
  else if eqb style_name (lit "Phonk") then
    img <-? Brightness_enhance lib img Float.f0_75 ;;
    let overlay := new_RGB (size img) (40, 0, 60) in
    img <-? blend lib img overlay Float.f0_2 ;;
    Contrast_enhance lib img Float.f1_1
  else if eqb style_name (lit "Tech") then
    UnsharpMask lib img 2 200 3
  else inr img.

(** ** The session

    The fields of [QuoteStudio] the core reads and writes, the text box the
    preview widget holds, the pixmap it shows, and what was printed. *)

Record QuoteStudio := mkQuoteStudio {
  base_image : Image;
  filtered_bg : Image;
  result_image : Image;
  current_style : str;
  text_color : Z * Z * Z;
  font_size : Z;
  quote : str;
  author : str;
  text_pos : Z * Z;
  margin_ratio : Float.float;
  preview_text_bbox : Z * Z * Z * Z;
  preview_pixmap : option Image;
  stdout : list exn
}.

Definition set_filtered_bg (v : Image) (s : QuoteStudio) : QuoteStudio :=
  mkQuoteStudio (base_image s) v (result_image s) (current_style s)
    (text_color s) (font_size s) (quote s) (author s) (text_pos s)
    (margin_ratio s) (preview_text_bbox s) (preview_pixmap s) (stdout s).

Definition set_result_image (v : Image) (s : QuoteStudio) : QuoteStudio :=
  mkQuoteStudio (base_image s) (filtered_bg s) v (current_style s)
    (text_color s) (font_size s) (quote s) (author s) (text_pos s)
    (margin_ratio s) (preview_text_bbox s) (preview_pixmap s) (stdout s).

Definition set_text_pos (v : Z * Z) (s : QuoteStudio) : QuoteStudio :=
  mkQuoteStudio (base_image s) (filtered_bg s) (result_image s)
    (current_style s) (text_color s) (font_size s) (quote s) (author s) v
    (margin_ratio s) (preview_text_bbox s) (preview_pixmap s) (stdout s).

(** [self.preview.set_text_bbox(rect)] *)
Definition set_text_bbox (v : Z * Z * Z * Z) (s : QuoteStudio) : QuoteStudio :=
  mkQuoteStudio (base_image s) (filtered_bg s) (result_image s)
    (current_style s) (text_color s) (font_size s) (quote s) (author s)
    (text_pos s) (margin_ratio s) v (preview_pixmap s) (stdout s).

(** [self.preview.setPixmap(pix)] *)
Definition setPixmap (v : Image) (s : QuoteStudio) : QuoteStudio :=
  mkQuoteStudio (base_image s) (filtered_bg s) (result_image s)
    (current_style s) (text_color s) (font_size s) (quote s) (author s)
    (text_pos s) (margin_ratio s) (preview_text_bbox s) (Some v) (stdout s).

(** [print("Render error:", ex)] *)
Definition print_error (ex : exn) (s : QuoteStudio) : QuoteStudio :=
  mkQuoteStudio (base_image s) (filtered_bg s) (result_image s)
    (current_style s) (text_color s) (font_size s) (quote s) (author s)
    (text_pos s) (margin_ratio s) (preview_text_bbox s) (preview_pixmap s)
    (stdout s ++ [ex]).

(** The collaborators of a session: the imaging library and the font
    resolution service [find_font(preferred_names, size)], which always
    returns a usable font. *)
Record Env := mkEnv {
  pil : PIL;
  find_font : list str -> Z -> Font
}.

Definition STYLE_FONT_PREFS : list (str * list str) :=
  [ (lit "None", map lit ["Arial"; "DejaVu Sans"; "Verdana";
                          "Helvetica"]%string);
    (lit "Epic", map lit ["Impact"; "Anton"; "Bebas Neue"; "Arial Black";
                          "DejaVu Sans"]%string);
    (lit "Noir", map lit ["Georgia"; "Times New Roman"; "DejaVu Serif";
                          "Merriweather"]%string);
    (lit "Fancy", map lit ["Pacifico"; "Brush Script"; "Lobster";
                           "Segoe Script"; "Gabriola"; "DejaVu Sans"]%string);
    (lit "Cyberpunk", map lit ["Orbitron"; "Eurostile"; "Agency FB";
                               "Bank Gothic"; "Audiowide";
                               "DejaVu Sans"]%string);
    (lit "Phonk", map lit ["Futura"; "Avenir"; "Montserrat"; "Poppins";
                           "Gotham"; "DejaVu Sans"]%string);
    (lit "Tech", map lit ["Consolas"; "Courier New"; "Inconsolata";
                          "DejaVu Sans Mono"; "SF Mono";
                          "DejaVu Sans"]%string) ].

(** [d.get(key, default)] *)
Fixpoint dict_get {V} (d : list (str * V)) (key : str) (default : V) : V :=
  match d with
  | [] => default
  | (k, v) :: d' => if eqb k key then v else dict_get d' key default
  end.

Definition pick_style_font (env : Env) (self : QuoteStudio) (sz : Z) : Font :=
  let prefs :=
    dict_get STYLE_FONT_PREFS (current_style self)
      (dict_get STYLE_FONT_PREFS (lit "None") []) in
  find_font env prefs sz.

(** ** Layout composer *)

Record Layout := mkLayout {
  quote_lines : list str;
  author_block_lines : list str;
  total_size : Z * Z;
  line_spacing : Z;
  spacer_h : Z
}.

(** The marker the f-string puts before the author: the characters U+00E2,
    U+20AC and U+201C of the source file, then a space. *)
Definition author_marker : str := [226; 8364; 8220; 32]%N.

(** Truthiness of a list. *)
Definition nonempty {A} (l : list A) : bool :=
  match l with [] => false | _ :: _ => true end.

Definition compute_text_layout (self : QuoteStudio) (font : Font)
    (max_width : Z) : Layout :=
  let quote_lines :=
    if truthy (quote self) then wrap_text (quote self) font max_width
    else [] in
  let line_spacing := Z.max 6 (Float.int_mul (font_size self) Float.f0_25) in
  let '(q_w, q_h, q_line_heights) :=
    measure_multiline quote_lines font line_spacing in
  let author_block_lines :=
    if truthy (strip (author self)) then
      let author_text := author_marker ++ strip (author self) in
      let author_lines := wrap_text author_text font max_width in
      [] :: author_lines
    else [] in
  let '(a_w, a_h, a_line_heights) :=
    measure_multiline
      (filter (fun ln => negb (eqb ln [])) author_block_lines)
      font line_spacing in
  let spacer_h :=
    if nonempty author_block_lines then
      if nonempty q_line_heights
      then Float.int_mul (last q_line_heights 0) Float.f0_6
      else Float.int_mul (font_size self) Float.f0_6
    else 0 in
  let total_w := Z.max q_w a_w in
  let total_h :=
    q_h + (if nonempty author_block_lines then spacer_h else 0) + a_h in
  mkLayout quote_lines author_block_lines (total_w, total_h) line_spacing
    spacer_h.

(** [int(img.width * (1 - 2 * self.margin_ratio))] *)
Definition text_max_width (self : QuoteStudio) (img : Image) : Z :=
  Float.to_int
    (Float.mul (Float.of_int (width img))
       (Float.sub (Float.of_int 1)
          (Float.mul (Float.of_int 2) (margin_ratio self)))).

Definition compute_text_bbox (env : Env) (self : QuoteStudio) (x y : Z)
    : option bbox :=
  let tmp := filtered_bg self in
  let font := pick_style_font env self (font_size self) in
  let max_width := text_max_width self tmp in
  let '(total_w, total_h) :=
    total_size (compute_text_layout self font max_width) in
  if (total_w =? 0) || (total_h =? 0) then None
  else Some (x, y, x + total_w, y + total_h).

(** ** Bounds clamper and hit tester *)

Definition clamp_text_within (env : Env) (self : QuoteStudio) : QuoteStudio :=
  let '(img_w, img_h) := size (base_image self) in
  match compute_text_bbox env self (fst (text_pos self)) (snd (text_pos self))
  with
  | None => self
  | Some (x0, y0, x1, y1) =>
      let dx := 0 in
      let dy := 0 in
      let dx := if x0 <? 0 then - x0 else dx in
      let dy := if y0 <? 0 then - y0 else dy in
      let dx :=
        if x1 >? img_w
        then (if img_w - x1 <? dx then img_w - x1 else img_w - x1)
        else dx in
      let dy :=
        if y1 >? img_h
        then (if img_h - y1 <? dy then img_h - y1 else img_h - y1)
        else dy in
      set_text_pos (fst (text_pos self) + dx, snd (text_pos self) + dy) self
  end.

Definition point_in_text_bbox (env : Env) (self : QuoteStudio) (x y : Z)
    : bool :=
  match compute_text_bbox env self (fst (text_pos self)) (snd (text_pos self))
  with
  | None => false
  | Some (x0, y0, x1, y1) =>
      ((x0 <=? x) && (x <=? x1)) && ((y0 <=? y) && (y <=? y1))
  end.

(** ** Renderer *)

(** The four shadow draws of one line, in solid black. *)
Definition draw_shadows (lib : PIL) (img : Image) (x yy : Z) (ln : str)
    (font : Font) : result Image :=
  fold_left
    (fun acc off =>
       img <-? acc ;;
       draw_text lib img (x + fst off, yy + snd off) ln font (0, 0, 0))
    [(-2, 2); (2, 2); (2, -2); (-2, -2)] (inr img).

(** One iteration of the loop of [draw_lines]: the state is the image drawn
    on and the vertical cursor [yy]. *)
Definition draw_line (lib : PIL) (x : Z) (font : Font) (color : Z * Z * Z)
    (draw_shadow : bool) (layout : Layout)
    (acc : result (Image * Z)) (ln : str) : result (Image * Z) :=
  st <-? acc ;;
  let '(img, yy) := st in
  if eqb ln [] then inr (img, yy + spacer_h layout)
  else
    img <-? (if draw_shadow then draw_shadows lib img x yy ln font
             else inr img) ;;
    img <-? draw_text lib img (x, yy) ln font color ;;
    let lh := text_height font ln in
    inr (img, yy + (lh + line_spacing layout)).

Definition draw_lines (lib : PIL) (x : Z) (font : Font) (color : Z * Z * Z)
    (draw_shadow : bool) (layout : Layout)
    (img : Image) (lines : list str) (start_y : Z) : result (Image * Z) :=
  fold_left (draw_line lib x font color draw_shadow layout) lines
    (inr (img, start_y)).

(** [draw_text_with_shadow]: the image drawn on and the bounding box. *)
Definition draw_text_with_shadow (lib : PIL) (self : QuoteStudio)
    (img : Image) (position : Z * Z) (font : Font) (color : Z * Z * Z)
    (draw_shadow : bool) : result (Image * bbox) :=
  let '(x, y) := position in
  let max_width := text_max_width self img in
  let layout := compute_text_layout self font max_width in
  let '(total_w, total_h) := total_size layout in
  let cur_y := y in
  st <-? draw_lines lib x font color draw_shadow layout img
           (quote_lines layout) cur_y ;;
  let '(img, cur_y) := st in
  st <-? (if nonempty (author_block_lines layout)
          then draw_lines lib x font color draw_shadow layout img
                 (author_block_lines layout) cur_y
          else inr (img, cur_y)) ;;
  let '(img, cur_y) := st in
  inr (img, (x, y, x + total_w, y + total_h)).

(** ** The recompute pass

    Methods that assign to the session run in a state monad whose
    computations end normally or by raising; what was assigned before a
    raise stays assigned. *)

Definition M (A : Type) : Type := QuoteStudio -> result A * QuoteStudio.

Definition ret {A} (a : A) : M A := fun s => (inr a, s).

Definition bind {A B} (m : M A) (k : A -> M B) : M B :=
  fun s =>
    match m s with
    | (inl e, s') => (inl e, s')
    | (inr a, s') => k a s'
    end.

Definition get : M QuoteStudio := fun s => (inr s, s).

Definition modify (f : QuoteStudio -> QuoteStudio) : M unit :=
  fun s => (inr tt, f s).

Definition lift {A} (r : result A) : M A := fun s => (r, s).

(** [try: body / except Exception as ex: handler(ex)] *)
Definition try_except_Exception {A} (body : M A) (handler : exn -> M A)
    : M A :=
  fun s =>
    match body s with
    | (inl e, s') => if is_Exception e then handler e s' else (inl e, s')
    | (inr a, s') => (inr a, s')
    end.

Notation "x <- m ;; k" := (bind m (fun x => k))
  (at level 61, m at next level, right associativity).
Notation "m ;;; k" := (bind m (fun _ => k))
  (at level 61, right associativity).

Definition compose_final (env : Env) (shadow_for_preview : bool) : M Image :=
  self <- get ;;
  bg <- lift (apply_style (pil env) (base_image self) (current_style self)) ;;
  let out := bg in
  let font := pick_style_font env self (font_size self) in
  let draw_shadow :=
    shadow_for_preview
    && (eqb (current_style self) (lit "Epic")
        || eqb (current_style self) (lit "Noir")) in
  drawn <- lift (draw_text_with_shadow (pil env) self out (text_pos self)
                   font (text_color self) draw_shadow) ;;
  let '(out, (x0, y0, x1, y1)) := drawn in
  modify (set_text_bbox (x0, y0, x1 - x0, y1 - y0)) ;;;
  ret out.

(** The preview update: the conversion to a pixmap may raise; a pixmap with
    no pixels is not shown.  The scaling of the pixmap to the widget is left
    to the display. *)
Definition update_preview_pixmap (env : Env) : M unit :=
  self <- get ;;
  pix <- lift (pil_to_qpixmap (pil env) (result_image self)) ;;
  if (width pix =? 0) || (height pix =? 0) then ret tt
  else modify (setPixmap pix).

Definition recompute (env : Env) : M unit :=
  try_except_Exception
    (self <- get ;;
     bg <- lift (apply_style (pil env) (base_image self)
                   (current_style self)) ;;
     modify (set_filtered_bg bg) ;;;
     out <- compose_final env true ;;
     modify (set_result_image out) ;;;
     update_preview_pixmap env)
    (fun ex => modify (print_error ex)).

(** ** Vocabulary of the properties *)

(** A word: non-empty and free of whitespace. *)
Definition is_word (w : str) : Prop :=
  w <> [] /\ Forall (fun c => isspace c = false) w.

(** What the wrapper promises of a line: it fits, or it is one word of the
    text that does not fit by itself. *)
Definition line_ok (font : Font) (max_width : Z) (words : list str)
    (ln : str) : Prop :=
  text_width font ln <= max_width
  \/ (In ln words /\ max_width < text_width font ln).

(** The largest element of a list of widths: an element that bounds all the
    others, and 0 for no element. *)
Definition is_max_of (m : Z) (xs : list Z) : Prop :=
  match xs with
  | [] => m = 0
  | _ :: _ => In m xs /\ Forall (fun x => x <= m) xs
  end.

(** The nearest integer to [n / d] for a positive [d], ties to the even
    neighbour. *)
Definition round_nearest (n d : Z) : Z :=
  let q := n / d in
  let r := n mod d in
  if 2 * r <? d then q
  else if d <? 2 * r then q + 1
  else if Z.even q then q else q + 1.

(** The line spacing with the product rounded to the nearest integer. *)
Definition rounded_line_spacing (fs : Z) : Z :=
  Z.max 6 (round_nearest fs 4).

(** A layout made of the author block alone: the author lines with nothing
    before them, and their height as the total height. *)
Definition author_block_only (self : QuoteStudio) (font : Font)
    (max_width : Z) : Prop :=
  let layout := compute_text_layout self font max_width in
  let author_lines :=
    wrap_text (author_marker ++ strip (author self)) font max_width in
  author_block_lines layout = author_lines
  /\ snd (total_size layout)
     = snd (fst (measure_multiline author_lines font (line_spacing layout))).

(** A box inside a canvas of the given size. *)
Definition inside_canvas (canvas : Z * Z) (b : bbox) : Prop :=
  let '(x0, y0, x1, y1) := b in
  0 <= x0 /\ x1 <= fst canvas /\ 0 <= y0 /\ y1 <= snd canvas.

(** The box of the text block at the session's anchor. *)
Definition current_bbox (env : Env) (self : QuoteStudio) : option bbox :=
  compute_text_bbox env self (fst (text_pos self)) (snd (text_pos self)).

(** How a pass of [recompute] ends when its body raises [e] in the state
    [s]: the handler prints an instance of [Exception], anything else
    propagates. *)
Definition handled (e : exn) (s : QuoteStudio) : result unit * QuoteStudio :=
  if is_Exception e then (inr tt, print_error e s) else (inl e, s).

(** A pass fails while filtering, laying out or rendering when the style
    filter raises, or when it returns and [compose_final] raises on the
    session holding the filtered background. *)
Definition render_fails (env : Env) (self : QuoteStudio) (e : exn) : Prop :=
  apply_style (pil env) (base_image self) (current_style self) = inl e
  \/ exists bg,
       apply_style (pil env) (base_image self) (current_style self) = inr bg
       /\ fst (compose_final env true (set_filtered_bg bg self)) = inl e.

(** The style names the style selector offers. *)
Definition STYLE_NAMES : list str :=
  map lit ["None"; "Epic"; "Noir"; "Fancy"; "Cyberpunk"; "Phonk";
           "Tech"]%string.

(** ** Test data *)

(** An imaging library whose operations all succeed and leave the pixels as
    they are. *)
Definition still_pil : PIL :=
  mkPIL (fun img _ => inr img) (fun img _ => inr img) (fun img _ => inr img)
    (fun img _ => inr img) (fun img _ _ _ => inr img)
    (fun a _ _ => inr a) (fun img _ _ _ _ => inr img) (fun img => inr img).

Definition ValueError : exn := mkExn true (lit "unexpected raster mode").

(** An imaging library that cannot draw text. *)
Definition failing_pil : PIL :=
  mkPIL (fun img _ => inr img) (fun img _ => inr img) (fun img _ => inr img)
    (fun img _ => inr img) (fun img _ _ _ => inr img)
    (fun a _ _ => inr a) (fun _ _ _ _ _ => inl ValueError)
    (fun img => inr img).

Definition demo_env : Env := mkEnv still_pil (fun _ _ => mono_font).
Definition failing_env : Env := mkEnv failing_pil (fun _ _ => mono_font).

Definition demo_image : Image := new_RGB (200, 100) (40, 40, 40).

(** A session on a 200 x 100 canvas with the given texts, font size and
    anchor. *)
Definition demo_session (quote author : str) (font_size : Z)
    (text_pos : Z * Z) : QuoteStudio :=
  mkQuoteStudio demo_image demo_image demo_image (lit "None")
    (255, 255, 255) font_size quote author text_pos Float.f0_05
    (0, 0, 0, 0) None [].

(** Three pixels in colour. *)
Definition demo_pixels : Image :=
  mkImage 3 1 (PxRGB [(255, 0, 0); (12, 200, 77); (0, 0, 255)]).

(** ** The widget: edits, keys and the mouse

    The handlers of [QuoteStudio] around the core.  The drag state lives
    beside the session; [drag_offset] is an attribute that does not exist
    until the first press assigns it.  Measuring the text is a total
    function of the font here, as in the core: what a handler raises in
    this development is what the recompute pass lets through, what
    [Image.open] raises, and the missing attribute. *)

Definition set_base_image (v : Image) (s : QuoteStudio) : QuoteStudio :=
  mkQuoteStudio v (filtered_bg s) (result_image s) (current_style s)
    (text_color s) (font_size s) (quote s) (author s) (text_pos s)
    (margin_ratio s) (preview_text_bbox s) (preview_pixmap s) (stdout s).

Definition set_current_style (v : str) (s : QuoteStudio) : QuoteStudio :=
  mkQuoteStudio (base_image s) (filtered_bg s) (result_image s) v
    (text_color s) (font_size s) (quote s) (author s) (text_pos s)
    (margin_ratio s) (preview_text_bbox s) (preview_pixmap s) (stdout s).

Definition set_text_color (v : Z * Z * Z) (s : QuoteStudio) : QuoteStudio :=
  mkQuoteStudio (base_image s) (filtered_bg s) (result_image s)
    (current_style s) v (font_size s) (quote s) (author s) (text_pos s)
    (margin_ratio s) (preview_text_bbox s) (preview_pixmap s) (stdout s).

Definition set_font_size (v : Z) (s : QuoteStudio) : QuoteStudio :=
  mkQuoteStudio (base_image s) (filtered_bg s) (result_image s)
    (current_style s) (text_color s) v (quote s) (author s) (text_pos s)
    (margin_ratio s) (preview_text_bbox s) (preview_pixmap s) (stdout s).

Definition set_texts (q a : str) (s : QuoteStudio) : QuoteStudio :=
  mkQuoteStudio (base_image s) (filtered_bg s) (result_image s)
    (current_style s) (text_color s) (font_size s) q a (text_pos s)
    (margin_ratio s) (preview_text_bbox s) (preview_pixmap s) (stdout s).

Module UI.

Record Widget := mkWidget {
  studio : QuoteStudio;
  (** [self.preview.dragging] *)
  dragging : bool;
  (** [self.preview.drag_show_box] *)
  drag_show_box : bool;
  (** [self.drag_offset], when it has been assigned *)
  drag_offset : option (Z * Z);
  (** the errors shown with [QMessageBox.critical] *)
  dialogs : list exn
}.

Definition with_studio (s : QuoteStudio) (w : Widget) : Widget :=
  mkWidget s (dragging w) (drag_show_box w) (drag_offset w) (dialogs w).

(** Reading an attribute that was never assigned. *)
Definition AttributeError : exn :=
  mkExn true (lit "'QuoteStudio' object has no attribute 'drag_offset'").

(** [self.recompute()] from a handler. *)
Definition do_recompute (env : Env) (w : Widget) : result unit * Widget :=
  let '(r, s) := recompute env (studio w) in (r, with_studio s w).

Inductive Key := Key_Left | Key_Right | Key_Up | Key_Down | Key_Other.

Record QKeyEvent := mkKeyEvent {
  key : Key;
  (** [e.modifiers() & Qt.ShiftModifier] *)
  shift : bool
}.

(** [keyPressEvent]: an arrow key moves the anchor by one pixel, by ten with
    Shift, clamps and recomputes; any other key goes to the base class. *)
Definition keyPressEvent (env : Env) (e : QKeyEvent) (w : Widget)
    : result unit * Widget :=
  let step := if shift e then 10 else 1 in
  let '(x, y) := text_pos (studio w) in
  let '(pos, changed) :=
    match key e with
    | Key_Left => ((x - step, y), true)
    | Key_Right => ((x + step, y), true)
    | Key_Up => ((x, y - step), true)
    | Key_Down => ((x, y + step), true)
    | Key_Other => ((x, y), false)
    end in
  if changed then
    do_recompute env
      (with_studio (clamp_text_within env (set_text_pos pos (studio w))) w)
  else (inr tt, w).

Inductive MouseButton := LeftButton | OtherButton.

(** A mouse event: its button and its position in image coordinates, as
    [self.preview.map_to_img(event.position().toPoint())] gives it. *)
Record QMouseEvent := mkMouseEvent {
  button : MouseButton;
  img_pt : Z * Z
}.

Definition is_left (b : MouseButton) : bool :=
  match b with LeftButton => true | OtherButton => false end.

Definition on_mouse_press (env : Env) (event : QMouseEvent) (w : Widget)
    : result bool * Widget :=
  if is_left (button event) then
    let '(px, py) := img_pt event in
    if point_in_text_bbox env (studio w) px py then
      let '(tx, ty) := text_pos (studio w) in
      (inr true, mkWidget (studio w) true true (Some (px - tx, py - ty))
                   (dialogs w))
    else (inr false, w)
  else (inr false, w).

Definition on_mouse_move (env : Env) (event : QMouseEvent) (w : Widget)
    : result bool * Widget :=
  if dragging w then
    let '(px, py) := img_pt event in
    match drag_offset w with
    | None => (inl AttributeError, w)
    | Some (ox, oy) =>
        let s := set_text_pos (px - ox, py - oy) (studio w) in
        let '(r, w') :=
          do_recompute env (with_studio (clamp_text_within env s) w) in
        (_ <-? r ;; inr true, w')
    end
  else (inr false, w).

Definition on_mouse_release (env : Env) (event : QMouseEvent) (w : Widget)
    : result bool * Widget :=
  if is_left (button event) && dragging w then
    let '(r, w') :=
      do_recompute env
        (mkWidget (studio w) false false (drag_offset w) (dialogs w)) in
    (_ <-? r ;; inr true, w')
  else (inr false, w).

Definition on_text_change (env : Env) (quote_text author_text : str)
    (w : Widget) : result unit * Widget :=
  do_recompute env (with_studio (set_texts quote_text author_text (studio w)) w).

Definition on_font_change (env : Env) (val : Z) (w : Widget)
    : result unit * Widget :=
  do_recompute env (with_studio (set_font_size val (studio w)) w).

Definition on_style_change (env : Env) (style : str) (w : Widget)
    : result unit * Widget :=
  do_recompute env (with_studio (set_current_style style (studio w)) w).

(** [on_pick_color]: the dialog gives a colour, or none when it is
    dismissed. *)
Definition on_pick_color (env : Env) (color : option (Z * Z * Z))
    (w : Widget) : result unit * Widget :=
  match color with
  | Some c => do_recompute env (with_studio (set_text_color c (studio w)) w)
  | None => (inr tt, w)
  end.

(** [on_load_image]: [path] is what the file dialog returned and
    [image_open] is [Image.open]. *)
Definition on_load_image (env : Env) (image_open : str -> result Image)
    (path : str) (w : Widget) : result unit * Widget :=
  if truthy path then
    match image_open path with
    | inl ex => if is_Exception ex
                then (inr tt, mkWidget (studio w) (dragging w)
                                (drag_show_box w) (drag_offset w)
                                (dialogs w ++ [ex]))
                else (inl ex, w)
    | inr opened =>
        let img := convert_RGB opened in
        let s := set_base_image img (studio w) in
        let s :=
          set_text_pos
            (Float.int_mul (width (base_image s)) (margin_ratio s),
             Float.int_mul (height (base_image s)) (margin_ratio s)) s in
        match do_recompute env (with_studio s w) with
        | (inl ex, w') =>
            if is_Exception ex
            then (inr tt, mkWidget (studio w') (dragging w')
                            (drag_show_box w') (drag_offset w')
                            (dialogs w' ++ [ex]))
            else (inl ex, w')
        | (inr u, w') => (inr u, w')
        end
    end
  else (inr tt, w).

(** The events the widget reacts to. *)
Inductive Event :=
  | MouseButtonPress (e : QMouseEvent)
  | MouseMove (e : QMouseEvent)
  | MouseButtonRelease (e : QMouseEvent)
  | Resize
  | KeyPress (e : QKeyEvent)
  | TextChanged (quote_text author_text : str)
  | FontChanged (val : Z)
  | StyleChanged (style : str)
  | ColorPicked (color : option (Z * Z * Z))
  | LoadImage (image_open : str -> result Image) (path : str).

(** The widget after an event, whether its handler returned or raised. *)
Definition after (env : Env) (w : Widget) (ev : Event) : Widget :=
  match ev with
  | MouseButtonPress e => snd (on_mouse_press env e w)
  | MouseMove e => snd (on_mouse_move env e w)
  | MouseButtonRelease e => snd (on_mouse_release env e w)
  | Resize =>
      with_studio (snd (update_preview_pixmap env (studio w))) w
  | KeyPress e => snd (keyPressEvent env e w)
  | TextChanged q a => snd (on_text_change env q a w)
  | FontChanged v => snd (on_font_change env v w)
  | StyleChanged s => snd (on_style_change env s w)
  | ColorPicked c => snd (on_pick_color env c w)
  | LoadImage image_open path => snd (on_load_image env image_open path w)
  end.

(** [QuoteStudio.__init__]: the fields, then the initial render. *)
Definition init (env : Env) : Widget :=
  let base_image := new_RGB (1200, 800) (40, 40, 40) in
  let s :=
    mkQuoteStudio base_image base_image base_image (lit "None")
      (255, 255, 255) 64 [] [] (60, 60) Float.f0_05 (0, 0, 0, 0) None [] in
  snd (do_recompute env (mkWidget s false false None [])).

End UI.

(** ** Font resolution

    [find_font(preferred_names, size)] over the font files of the system:
    [FONT_FILES] is the dict of lower-cased file names to paths in insertion
    order, [truetype] is [ImageFont.truetype], [load_default] is
    [ImageFont.load_default()], and [lower] is [str.lower]. *)

Module Fonts.

(** [s.replace(" ", "")] *)
Definition remove_spaces (s : str) : str :=
  filter (fun c => negb (c =? 32)%N) s.

(** [s.startswith(prefix)] *)
Fixpoint startswith (s prefix : str) : bool :=
  match prefix, s with
  | [], _ => true
  | p :: prefix', c :: s' => (p =? c)%N && startswith s' prefix'
  | _ :: _, [] => false
  end.

(** [sub in s] *)
Fixpoint contains (sub s : str) : bool :=
  startswith s sub
  || match s with
     | [] => false
     | _ :: s' => contains sub s'
     end.

Definition GENERIC : list str :=
  map lit ["arial.ttf"; "DejaVuSans.ttf"; "verdana.ttf"; "Helvetica.ttf";
           "FreeSans.ttf"]%string.

Section FindFont.

Variable lower : str -> str.
Variable FONT_FILES : list (str * str).
Variable truetype : str -> Z -> result Font.
Variable load_default : result Font.

(** The loop over the preferred names: the first matching file of a name is
    tried, and a failure to load it moves on to the next name. *)
Fixpoint try_preferred (preferred_names : list str) (size : Z)
    : result (option Font) :=
  match preferred_names with
  | [] => inr None
  | name :: rest =>
      let key := remove_spaces (lower name) in
      let candidates :=
        map snd
          (filter (fun kv => contains key (remove_spaces (fst kv)))
             FONT_FILES) in
      match candidates with
      | [] => try_preferred rest size
      | c :: _ =>
          match truetype c size with
          | inr f => inr (Some f)
          | inl e =>
              if is_Exception e then try_preferred rest size else inl e
          end
      end
  end.

(** The loop over the files for one generic name. *)
Fixpoint try_generic (generic : str) (items : list (str * str)) (size : Z)
    : result (option Font) :=
  match items with
  | [] => inr None
  | (k, v) :: rest =>
      if contains (lower generic) k then
        match truetype v size with
        | inr f => inr (Some f)
        | inl e =>
            if is_Exception e then try_generic generic rest size else inl e
        end
      else try_generic generic rest size
  end.

Fixpoint try_generics (generics : list str) (size : Z)
    : result (option Font) :=
  match generics with
  | [] => inr None
  | g :: rest =>
      match try_generic g FONT_FILES size with
      | inl e => inl e
      | inr (Some f) => inr (Some f)
      | inr None => try_generics rest size
      end
  end.

Definition find_font (preferred_names : list str) (size : Z) : result Font :=
  match try_preferred preferred_names size with
  | inl e => inl e
  | inr (Some f) => inr f
  | inr None =>
      match try_generics GENERIC size with
      | inl e => inl e
      | inr (Some f) => inr f
      | inr None =>
          match load_default with
          | inr f => inr f
          | inl e => if is_Exception e then load_default else inl e
          end
      end
  end.

End FindFont.

End Fonts.

(** ** Further vocabulary *)

(** The correction [clamp_text_within] computes along one axis for a box
    from [lo] to [hi] on a canvas of extent [w]. *)
Definition clamp_axis (lo hi w : Z) : Z :=
  let d0 := if lo <? 0 then - lo else 0 in
  if hi >? w then (if w - hi <? d0 then w - hi else w - hi) else d0.

(** Every prefix of two or more words of a group fits the maximum width. *)
Definition prefixes_fit (font : Font) (max_width : Z) (g : list str) : Prop :=
  forall k, (2 <= k <= length g)%nat ->
    text_width font (join space (firstn k g)) <= max_width.

(** Each group but the last could not take the first word of the next. *)
Fixpoint breaks_forced (font : Font) (max_width : Z)
    (groups : list (list str)) : Prop :=
  match groups with
  | a :: (b :: _) as rest =>
      match b with
      | [] => False
      | w :: _ => max_width < text_width font (join space (a ++ [w]))
      end
      /\ breaks_forced font max_width rest
  | _ => True
  end.

(** How far [draw_lines] moves the cursor over a block of lines. *)
Definition cursor_advance (font : Font) (layout : Layout)
    (lines : list str) : Z :=
  fold_right Z.add 0
    (map (fun ln => if eqb ln [] then spacer_h layout
                    else text_height font ln + line_spacing layout) lines).

(** An RGB raster all of whose pixels are grey levels. *)
Definition achromatic (img : Image) : Prop :=
  exists px, pixels img = PxRGB px
             /\ Forall (fun '(r, g, b) => r = g /\ g = b /\ 0 <= r < 256) px.

(** 1 for a list with an element, 0 for none. *)
Definition count_block {A} (l : list A) : Z := if nonempty l then 1 else 0.

(** Two sessions with the same canvas, texts, style, colour, font size,
    anchor and margin. *)
Definition same_inputs (s s' : QuoteStudio) : Prop :=
  base_image s' = base_image s
  /\ current_style s' = current_style s
  /\ text_color s' = text_color s
  /\ font_size s' = font_size s
  /\ quote s' = quote s
  /\ author s' = author s
  /\ text_pos s' = text_pos s
  /\ margin_ratio s' = margin_ratio s.

(** The direction of an arrow key, as a unit step. *)
Definition key_delta (k : UI.Key) : Z * Z :=
  match k with
  | UI.Key_Left => (-1, 0)
  | UI.Key_Right => (1, 0)
  | UI.Key_Up => (0, -1)
  | UI.Key_Down => (0, 1)
  | UI.Key_Other => (0, 0)
  end.

(** The text box of a session is inside the canvas, or there is none. *)
Definition box_inside (env : Env) (s : QuoteStudio) : Prop :=
  match current_bbox env s with
  | Some b => inside_canvas (size (base_image s)) b
  | None => True
  end.

(** The drag state is coherent: while dragging, [drag_offset] exists. *)
Definition drag_coherent (w : UI.Widget) : Prop :=
  UI.dragging w = true -> UI.drag_offset w <> None.

(** ** Further test data *)

Definition MemoryError : exn := mkExn true (lit "out of memory").

(** An imaging library every operation of which raises. *)
Definition raising_pil : PIL :=
  mkPIL (fun _ _ => inl MemoryError) (fun _ _ => inl MemoryError)
    (fun _ _ => inl MemoryError) (fun _ _ => inl MemoryError)
    (fun _ _ _ _ => inl MemoryError) (fun _ _ _ => inl MemoryError)
    (fun _ _ _ _ _ => inl MemoryError) (fun _ => inl MemoryError).

(** An imaging library that renders but cannot make a pixmap. *)
Definition no_pixmap_pil : PIL :=
  mkPIL (fun img _ => inr img) (fun img _ => inr img) (fun img _ => inr img)
    (fun img _ => inr img) (fun img _ _ _ => inr img)
    (fun a _ _ => inr a) (fun img _ _ _ _ => inr img)
    (fun _ => inl MemoryError).

Definition no_pixmap_env : Env := mkEnv no_pixmap_pil (fun _ _ => mono_font).

(** An interrupt: not an instance of [Exception]. *)
Definition KeyboardInterrupt : exn := mkExn false (lit "KeyboardInterrupt").

(** An imaging library interrupted whenever it draws text. *)
Definition interrupted_pil : PIL :=
  mkPIL (fun img _ => inr img) (fun img _ => inr img) (fun img _ => inr img)
    (fun img _ => inr img) (fun img _ _ _ => inr img)
    (fun a _ _ => inr a) (fun _ _ _ _ _ => inl KeyboardInterrupt)
    (fun img => inr img).

Definition interrupted_env : Env :=
  mkEnv interrupted_pil (fun _ _ => mono_font).

(** A widget at rest around a demo session. *)
Definition demo_widget (quote author : str) (text_pos : Z * Z) : UI.Widget :=
  UI.mkWidget (demo_session quote author 64 text_pos) false false None [].

(** Three grey pixels. *)
Definition grey_pixels : Image :=
  mkImage 3 1 (PxRGB [(0, 0, 0); (128, 128, 128); (255, 255, 255)]).

(** * Properties *)

(** ** The code on small inputs *)

Example split_sample :
  split (lit "  the quick   brown fox ")
  = [lit "the"; lit "quick"; lit "brown"; lit "fox"].
Proof. reflexivity. Qed.

Example strip_sample : strip (lit "  Jane Doe  ") = lit "Jane Doe".
Proof. reflexivity. Qed.

Example wrap_text_sample :
  wrap_text (lit "the quick  brown fox jumps") mono_font 100
  = [lit "the quick"; lit "brown fox"; lit "jumps"].
Proof. reflexivity. Qed.

(** A word wider than the maximum width stays whole on its own line. *)
Example wrap_text_oversized_word :
  wrap_text (lit "an extraordinarily long word") mono_font 100
  = [lit "an"; lit "extraordinarily"; lit "long word"].
Proof. reflexivity. Qed.

Example wrap_text_empty : wrap_text [] mono_font 100 = [].
Proof. reflexivity. Qed.

Example measure_multiline_sample :
  measure_multiline [lit "the quick"; lit "brown fox"; lit "jumps"]
    mono_font 6
  = (90, 72, [20; 20; 20]).
Proof. reflexivity. Qed.

(** [int(64 * 0.6)], [int(27 * 0.25)] and [int(1200 * (1 - 2 * 0.05))]. *)
Example float_samples :
  Float.int_mul 64 Float.f0_6 = 38
  /\ Float.int_mul 27 Float.f0_25 = 6
  /\ Float.to_int
       (Float.mul (Float.of_int 1200)
          (Float.sub (Float.of_int 1)
             (Float.mul (Float.of_int 2) Float.f0_05))) = 1080.
Proof. repeat split; reflexivity. Qed.

(** The literals [0.6] and [0.05] have 53-bit significands and lie within
    half a unit in the last place of the decimal they stand for: [0.6] is
    [m * 2 ^ -53] and [0.05] is [2 m * 2 ^ -57]. *)
Lemma float_literals_nearest :
  (2 ^ 52 <= Float.mant Float.f0_6 < 2 ^ 53
   /\ Z.abs (10 * Float.mant Float.f0_6 - 6 * 2 ^ 53) <= 5)
  /\ (2 ^ 52 <= 2 * Float.mant Float.f0_05 < 2 ^ 53
      /\ Z.abs (100 * (2 * Float.mant Float.f0_05) - 5 * 2 ^ 57) <= 50).
Proof. repeat split; vm_compute; first [reflexivity | discriminate]. Qed.

Example layout_sample :
  compute_text_layout
    (demo_session (lit "Hello world") (lit " Jane Doe ") 64 (10, 10))
    mono_font 180
  = mkLayout [lit "Hello world"] [[]; author_marker ++ lit "Jane Doe"]
      (120, 52) 16 12.
Proof. reflexivity. Qed.

Example noir_sample :
  apply_style still_pil demo_pixels (lit "Noir")
  = inr (mkImage 3 1 (PxRGB [(76, 76, 76); (130, 130, 130); (29, 29, 29)])).
Proof. reflexivity. Qed.

(** ** Strings *)

Lemma eqb_true_iff (a b : str) : eqb a b = true <-> a = b.
Proof.
  unfold eqb. destruct (list_eq_dec N.eq_dec a b); split; congruence.
Qed.

Lemma eqb_nil (s : str) : eqb s [] = negb (truthy s).
Proof.
  destruct s as [|c s]; unfold eqb.
  - destruct (list_eq_dec N.eq_dec [] []); [reflexivity | congruence].
  - destruct (list_eq_dec N.eq_dec (c :: s) []); [discriminate | reflexivity].
Qed.

Lemma truthy_true (s : str) : truthy s = true <-> s <> [].
Proof. destruct s; simpl; split; congruence. Qed.

Lemma truthy_false (s : str) : truthy s = false <-> s = [].
Proof. destruct s; simpl; split; congruence. Qed.

Lemma split_aux_words (s cur : str) :
  Forall (fun c => isspace c = false) cur ->
  Forall is_word (split_aux cur s).
Proof.
  revert cur. induction s as [|c s IH]; intros cur Hcur; simpl.
  - destruct cur as [|c0 cur']; simpl; constructor.
    + split; [discriminate | assumption].
    + constructor.
  - destruct (isspace c) eqn:Hc.
    + destruct cur as [|c0 cur']; simpl.
      * apply IH. constructor.
      * constructor.
        -- split; [discriminate | assumption].
        -- apply IH. constructor.
    + apply IH. apply Forall_app. split; [assumption|].
      constructor; [assumption | constructor].
Qed.

Lemma split_words (s : str) : Forall is_word (split s).
Proof. apply split_aux_words. constructor. Qed.

Lemma split_aux_run (w cur rest : str) :
  Forall (fun c => isspace c = false) w ->
  split_aux cur (w ++ rest) = split_aux (cur ++ w) rest.
Proof.
  revert cur. induction w as [|c w IH]; intros cur Hw; simpl.
  - now rewrite app_nil_r.
  - inversion Hw as [|? ? Hc Hw']; subst. rewrite Hc.
    rewrite IH by assumption. now rewrite <- app_assoc.
Qed.

Lemma split_join (ws : list str) :
  Forall is_word ws -> split (join space ws) = ws.
Proof.
  induction ws as [|w ws IH]; intros Hws; [reflexivity|].
  inversion Hws as [|? ? [Hne Hw] Hws']; subst.
  destruct ws as [|w2 ws].
  - simpl. unfold split.
    rewrite <- (app_nil_r w) at 1. rewrite split_aux_run by assumption.
    simpl. destruct w; [congruence | reflexivity].
  - change (join space (w :: w2 :: ws))
      with (w ++ space ++ join space (w2 :: ws)).
    unfold split. rewrite split_aux_run by assumption.
    change (space ++ join space (w2 :: ws))
      with (32%N :: join space (w2 :: ws)).
    change ([] ++ w) with w.
    destruct w as [|c w]; [congruence|].
    cbn [split_aux]. change (isspace 32%N) with true. cbn [truthy].
    f_equal. apply IH. assumption.
Qed.

Lemma join_snoc (sep : str) (g : list str) (w : str) :
  g <> [] -> join sep (g ++ [w]) = join sep g ++ sep ++ w.
Proof.
  induction g as [|a g IH]; intros Hg; [congruence|].
  destruct g as [|b g].
  - reflexivity.
  - change (join sep ((a :: b :: g) ++ [w]))
      with (a ++ sep ++ join sep ((b :: g) ++ [w])).
    rewrite IH by discriminate.
    change (join sep (a :: b :: g)) with (a ++ sep ++ join sep (b :: g)).
    now rewrite <- !app_assoc.
Qed.

Lemma join_app (sep : str) (l1 l2 : list str) :
  l1 <> [] -> l2 <> [] ->
  join sep (l1 ++ l2) = join sep l1 ++ sep ++ join sep l2.
Proof.
  induction l1 as [|a l1 IH]; intros H1 H2; [congruence|].
  destruct l1 as [|b l1].
  - destruct l2 as [|c l2]; [congruence | reflexivity].
  - change (join sep ((a :: b :: l1) ++ l2))
      with (a ++ sep ++ join sep ((b :: l1) ++ l2)).
    rewrite IH by (assumption || discriminate).
    change (join sep (a :: b :: l1)) with (a ++ sep ++ join sep (b :: l1)).
    now rewrite <- !app_assoc.
Qed.

Lemma join_words_nil (g : list str) :
  Forall is_word g -> join space g = [] -> g = [].
Proof.
  intros Hg Hj. destruct g as [|a g]; [reflexivity|].
  inversion Hg as [|? ? [Hne _] _]; subst.
  destruct g as [|b g]; simpl in Hj.
  - congruence.
  - destruct a; [congruence | discriminate].
Qed.

(** ** Text wrapper *)

Section WrapProperties.

Variable font : Font.
Variable max_width : Z.

Lemma wrap_loop_cons (w : str) (ws : list str) (st : wrap_state) :
  wrap_loop font max_width (w :: ws) st
  = wrap_loop font max_width ws (wrap_step font max_width st w).
Proof. reflexivity. Qed.

Lemma wrap_step_line_ok (words : list str) (lines : list str)
    (line w : str) :
  In w words ->
  Forall (line_ok font max_width words) lines ->
  line = [] \/ line_ok font max_width words line ->
  Forall (line_ok font max_width words)
    (fst (wrap_step font max_width (lines, line) w))
  /\ line_ok font max_width words
       (snd (wrap_step font max_width (lines, line) w)).
Proof.
  intros Hin Hlines Hline. unfold wrap_step.
  destruct (text_width font (if eqb line [] then w else line ++ space ++ w)
            <=? max_width) eqn:Hfit; simpl.
  - split; [assumption|]. left. now apply Z.leb_le.
  - split.
    + destruct (truthy line) eqn:Ht; [|assumption].
      apply Forall_app. split; [assumption|].
      constructor; [|constructor].
      destruct Hline as [Hnil | Hok]; [|assumption].
      apply truthy_true in Ht. contradiction.
    + destruct (Z_le_gt_dec (text_width font w) max_width) as [Hle | Hgt].
      * now left.
      * right. split; [assumption | lia].
Qed.

Lemma wrap_loop_line_ok (words ws : list str) :
  forall (lines : list str) (line : str),
    incl ws words ->
    Forall (line_ok font max_width words) lines ->
    line = [] \/ line_ok font max_width words line ->
    Forall (line_ok font max_width words)
      (fst (wrap_loop font max_width ws (lines, line)))
    /\ (snd (wrap_loop font max_width ws (lines, line)) = []
        \/ line_ok font max_width words
             (snd (wrap_loop font max_width ws (lines, line)))).
Proof.
  induction ws as [|w ws IH]; intros lines line Hincl Hlines Hline.
  - simpl. split; assumption.
  - rewrite wrap_loop_cons.
    assert (Hin : In w words) by (apply Hincl; now left).
    pose proof (wrap_step_line_ok words lines line w Hin Hlines Hline)
      as Hstep.
    revert Hstep.
    destruct (wrap_step font max_width (lines, line) w) as [lines' line'].
    simpl. intros [H1 H2].
    apply IH.
    + intros x Hx. apply Hincl. now right.
    + exact H1.
    + right. exact H2.
Qed.

(** The loop keeps its lines as groups of words: every flushed line is the
    join of a non-empty group, the line being filled is the join of the
    current group, and the groups hold the words consumed, in order. *)
Lemma wrap_loop_groups (ws : list str) :
  forall (gs : list (list str)) (g : list str),
    Forall is_word ws -> Forall is_word g ->
    Forall (fun g => g <> []) gs ->
    exists gs' g',
      wrap_loop font max_width ws (map (join space) gs, join space g)
      = (map (join space) gs', join space g')
      /\ concat gs' ++ g' = (concat gs ++ g) ++ ws
      /\ Forall (fun g => g <> []) gs'
      /\ Forall is_word g'.
Proof.
  induction ws as [|w ws IH]; intros gs g Hws Hg Hgs.
  - exists gs, g. simpl. rewrite app_nil_r. repeat split; assumption.
  - inversion Hws as [|? ? Hw Hws']; subst.
    rewrite wrap_loop_cons. unfold wrap_step.
    assert (Htest : (if eqb (join space g) [] then w
                     else join space g ++ space ++ w)
                    = join space (g ++ [w])).
    { rewrite eqb_nil. destruct (truthy (join space g)) eqn:Ht; simpl.
      - rewrite join_snoc; [reflexivity|].
        intros ->. simpl in Ht. discriminate.
      - apply truthy_false in Ht. apply join_words_nil in Ht; [|assumption].
        subst g. reflexivity. }
    rewrite Htest.
    destruct (text_width font (join space (g ++ [w])) <=? max_width).
    + destruct (IH gs (g ++ [w])) as (gs' & g' & Hrun & Hcat & Hne & Hg');
        try assumption.
      { apply Forall_app. split; [assumption|]. now constructor. }
      exists gs', g'. split; [exact Hrun|]. split; [|split; assumption].
      rewrite Hcat. rewrite <- !app_assoc. reflexivity.
    + destruct (truthy (join space g)) eqn:Ht.
      * assert (Hgne : g <> []).
        { intros ->. simpl in Ht. discriminate. }
        destruct (IH (gs ++ [g]) [w])
          as (gs' & g' & Hrun & Hcat & Hne & Hg'); try assumption.
        { now constructor. }
        { apply Forall_app. split; [assumption|]. now constructor. }
        exists gs', g'. split.
        { rewrite map_app in Hrun. exact Hrun. }
        split; [|split; assumption].
        rewrite Hcat. rewrite concat_app. simpl.
        rewrite <- !app_assoc. reflexivity.
      * apply truthy_false in Ht. apply join_words_nil in Ht; [|assumption].
        subst g.
        destruct (IH gs [w]) as (gs' & g' & Hrun & Hcat & Hne & Hg');
          try assumption.
        { now constructor. }
        exists gs', g'. split; [exact Hrun|].
        split; [|split; assumption].
        rewrite Hcat. rewrite <- !app_assoc. reflexivity.
Qed.

(** The lines of [wrap_text] are the joins of consecutive non-empty groups
    of the words of the text. *)
Lemma wrap_text_groups (text : str) :
  exists groups : list (list str),
    wrap_text text font max_width = map (join space) groups
    /\ concat groups = split text
    /\ Forall (fun g => g <> []) groups.
Proof.
  unfold wrap_text. destruct (truthy text) eqn:Htext; cbn [negb].
  2:{ exists []. apply truthy_false in Htext. subst text.
      repeat split; constructor. }
  destruct (wrap_loop_groups (split text) [] [])
    as (gs & g & Hrun & Hcat & Hne & Hg).
  { apply split_words. } { constructor. } { constructor. }
  cbn [map join List.concat app] in Hrun, Hcat.
  change (wrap_loop font max_width (split text) wrap_init
          = (map (join space) gs, join space g)) in Hrun.
  rewrite Hrun.
  destruct (truthy (join space g)) eqn:Ht.
  - exists (gs ++ [g]). rewrite map_app. split; [reflexivity|]. split.
    + rewrite concat_app. simpl. now rewrite app_nil_r.
    + apply Forall_app. split; [assumption|].
      constructor; [|constructor]. intros ->. simpl in Ht. discriminate.
  - apply truthy_false in Ht. apply join_words_nil in Ht; [|assumption].
    subst g. rewrite app_nil_r in Hcat. exists gs. repeat split; assumption.
Qed.

End WrapProperties.

Lemma join_concat (groups : list (list str)) :
  Forall (fun g => g <> []) groups ->
  join space (map (join space) groups) = join space (concat groups).
Proof.
  induction groups as [|g groups IH]; intros Hne; [reflexivity|].
  inversion Hne as [|? ? Hg Hrest]; subst.
  destruct groups as [|g2 groups].
  - simpl. now rewrite app_nil_r.
  - change (map (join space) (g :: g2 :: groups))
      with (join space g :: map (join space) (g2 :: groups)).
    change (join space (join space g :: map (join space) (g2 :: groups)))
      with (join space g ++ space
            ++ join space (map (join space) (g2 :: groups))).
    rewrite IH by assumption.
    change (concat (g :: g2 :: groups)) with (g ++ concat (g2 :: groups)).
    rewrite join_app; [reflexivity | assumption |].
    inversion Hrest as [|? ? Hg2 _]; subst. simpl.
    destruct g2; [congruence | discriminate].
Qed.

Lemma concat_split_join (groups : list (list str)) :
  Forall is_word (concat groups) ->
  concat (map split (map (join space) groups)) = concat groups.
Proof.
  induction groups as [|g groups IH]; intros Hw; [reflexivity|].
  simpl in Hw. apply Forall_app in Hw. destruct Hw as [Hg Hrest].
  simpl. rewrite split_join by assumption. now rewrite IH.
Qed.

(** C1. For every text, font and maximum width, each line the wrapper
    produces either measures at most the maximum width, or is a single word
    of the text whose own measured width exceeds the maximum width: an
    oversized word stays whole on a line of its own. *)
Theorem wrap_text_lines_fit (text : str) (font : Font) (max_width : Z) :
  Forall (line_ok font max_width (split text))
    (wrap_text text font max_width).
Proof.
  unfold wrap_text. destruct (truthy text); cbn [negb]; [|constructor].
  pose proof (wrap_loop_line_ok font max_width (split text) (split text)
                [] [] (incl_refl _) (Forall_nil _) (or_introl eq_refl))
    as Hloop.
  change (@nil str, @nil char) with wrap_init in Hloop.
  revert Hloop.
  destruct (wrap_loop font max_width (split text) wrap_init)
    as [lines line].
  cbn [fst snd]. intros [Hlines Hline].
  destruct (truthy line) eqn:Ht; [|assumption].
  apply Forall_app. split; [assumption|].
  constructor; [|constructor].
  destruct Hline as [Hnil | Hok]; [|assumption].
  apply truthy_true in Ht. contradiction.
Qed.

(** C2. For every text, font and maximum width, joining the wrapper's lines
    with single spaces gives the whitespace-normalized text, the words of
    the text joined with single spaces; and splitting the lines back into
    words gives the words of the text, in order, none dropped, duplicated or
    split. *)
Theorem wrap_text_preserves_words (text : str) (font : Font)
    (max_width : Z) :
  join space (wrap_text text font max_width) = join space (split text)
  /\ concat (map split (wrap_text text font max_width)) = split text.
Proof.
  destruct (wrap_text_groups font max_width text)
    as (groups & Hlines & Hcat & Hne).
  rewrite Hlines. split.
  - rewrite join_concat by assumption. now rewrite Hcat.
  - rewrite concat_split_join; [assumption|].
    rewrite Hcat. apply split_words.
Qed.

(** ** Multiline measurer *)

Lemma measure_loop (font : Font) (lines : list str) :
  forall (w0 : Z) (hs0 : list Z),
    fold_left (measure_step font) lines (w0, hs0)
    = (fold_left Z.max (map (text_width font) lines) w0,
       hs0 ++ map (text_height font) lines).
Proof.
  induction lines as [|ln lines IH]; intros w0 hs0; simpl.
  - now rewrite app_nil_r.
  - rewrite IH. now rewrite <- app_assoc.
Qed.

Lemma fold_max_ge (xs : list Z) :
  forall m, m <= fold_left Z.max xs m
            /\ Forall (fun x => x <= fold_left Z.max xs m) xs.
Proof.
  induction xs as [|x xs IH]; intros m; simpl.
  - split; [lia | constructor].
  - destruct (IH (Z.max m x)) as [Hm Hall]. split; [lia|].
    constructor; [lia | assumption].
Qed.

Lemma fold_max_in (xs : list Z) :
  forall m, fold_left Z.max xs m = m \/ In (fold_left Z.max xs m) xs.
Proof.
  induction xs as [|x xs IH]; intros m; simpl.
  - now left.
  - destruct (IH (Z.max m x)) as [Heq | Hin].
    + rewrite Heq. destruct (Z.max_spec m x) as [[_ ->] | [_ ->]];
        [right; now left | now left].
    + right. now right.
Qed.

Lemma fold_max_is_max (xs : list Z) :
  Forall (fun x => 0 <= x) xs -> is_max_of (fold_left Z.max xs 0) xs.
Proof.
  intros Hpos. destruct xs as [|x xs]; [reflexivity|].
  unfold is_max_of. split; [|apply fold_max_ge].
  destruct (fold_max_in (x :: xs) 0) as [Heq | Hin]; [|assumption].
  rewrite Heq. inversion Hpos as [|? ? Hx _]; subst.
  destruct (fold_max_ge (x :: xs) 0) as [_ Hall].
  inversion Hall as [|? ? Hx0 _]; subst. rewrite Heq in Hx0.
  assert (x = 0) by lia. subst x. now left.
Qed.

Lemma py_sum_from (xs : list Z) :
  forall a, fold_left Z.add xs a = a + fold_right Z.add 0 xs.
Proof.
  induction xs as [|x xs IH]; intros a; simpl; [lia|].
  rewrite IH. lia.
Qed.

Lemma py_sum_fold_right (xs : list Z) : py_sum xs = fold_right Z.add 0 xs.
Proof. unfold py_sum. rewrite py_sum_from. lia. Qed.

Lemma measure_multiline_eq (lines : list str) (font : Font) (S : Z) :
  measure_multiline lines font S
  = (fold_left Z.max (map (text_width font) lines) 0,
     match lines with
     | [] => 0
     | _ :: _ =>
         fold_right Z.add 0 (map (text_height font) lines)
         + S * (Z.of_nat (length lines) - 1)
     end,
     map (text_height font) lines).
Proof.
  unfold measure_multiline. rewrite measure_loop. cbn [app].
  destruct lines as [|ln lines]; [reflexivity|].
  cbn [map]. rewrite py_sum_fold_right.
  cbn [length]. now rewrite length_map.
Qed.

(** C5. For every sequence of lines measured to non-negative widths, every
    font and every line spacing S, the measurer returns the per-line
    measured heights, as width the largest measured line width, and as
    height the sum of the per-line heights plus S times the line count
    minus one; for no lines it returns zero width and zero height. *)
Theorem measure_multiline_spec (lines : list str) (font : Font) (S : Z) :
  (forall ln, In ln lines -> 0 <= text_width font ln) ->
  let '(w, h, line_heights) := measure_multiline lines font S in
  line_heights = map (text_height font) lines
  /\ is_max_of w (map (text_width font) lines)
  /\ (lines <> [] ->
      h = fold_right Z.add 0 line_heights
          + S * (Z.of_nat (length lines) - 1))
  /\ (lines = [] -> w = 0 /\ h = 0).
Proof.
  intros Hpos. rewrite measure_multiline_eq.
  split; [reflexivity|]. split; [|split].
  - apply fold_max_is_max. apply Forall_forall.
    intros x Hx. apply in_map_iff in Hx. destruct Hx as (ln & <- & Hln).
    now apply Hpos.
  - intros Hne. destruct lines; [congruence | reflexivity].
  - intros ->. split; reflexivity.
Qed.

Lemma measure_multiline_spec_witness :
  measure_multiline [lit "Hello"; lit "hi"] mono_font 6 = (50, 46, [20; 20])
  /\ let '(w, h, line_heights) :=
       measure_multiline [lit "Hello"; lit "hi"] mono_font 6 in
     line_heights = map (text_height mono_font) [lit "Hello"; lit "hi"]
     /\ is_max_of w (map (text_width mono_font) [lit "Hello"; lit "hi"])
     /\ ([lit "Hello"; lit "hi"] <> [] ->
         h = fold_right Z.add 0 line_heights
             + 6 * (Z.of_nat (length [lit "Hello"; lit "hi"]) - 1))
     /\ ([lit "Hello"; lit "hi"] = [] -> w = 0 /\ h = 0).
Proof.
  split; [reflexivity|].
  apply (measure_multiline_spec [lit "Hello"; lit "hi"] mono_font 6).
  intros ln [<- | [<- | []]]; vm_compute; discriminate.
Defined.

(** ** Floating point *)

Lemma round53_exact (m e : Z) :
  0 <= m < 2 ^ 53 -> Float.round53 m e = Float.mk m e.
Proof.
  intros [H0 H1]. unfold Float.round53.
  rewrite Z.abs_eq by assumption.
  assert (Hlog : Z.log2 m < 53).
  { destruct (Z.eq_dec m 0) as [-> | Hne]; [reflexivity|].
    apply Z.log2_lt_pow2; lia. }
  destruct (Z.leb_spec (Z.log2 m + 1) 53); [reflexivity | lia].
Qed.

Lemma round53_nonneg (m e : Z) :
  0 <= m -> 0 <= Float.mant (Float.round53 m e).
Proof.
  intros Hm. unfold Float.round53. rewrite Z.abs_eq by assumption.
  destruct (Z.log2 m + 1 <=? 53); [exact Hm|].
  cbn [Float.mant].
  assert (Hq : 0 <= Z.shiftr m (Z.log2 m + 1 - 53))
    by (apply Z.shiftr_nonneg; assumption).
  assert (Hs : 0 <= Z.sgn m) by (apply Z.sgn_nonneg; assumption).
  destruct ((Z.shiftl 1 (Z.log2 m + 1 - 53 - 1)
             <? m - Z.shiftl (Z.shiftr m (Z.log2 m + 1 - 53))
                    (Z.log2 m + 1 - 53))
            || ((m - Z.shiftl (Z.shiftr m (Z.log2 m + 1 - 53))
                     (Z.log2 m + 1 - 53)
                 =? Z.shiftl 1 (Z.log2 m + 1 - 53 - 1))
                && Z.odd (Z.shiftr m (Z.log2 m + 1 - 53)))); nia.
Qed.

Lemma to_int_nonneg (a : Float.float) :
  0 <= Float.mant a -> 0 <= Float.to_int a.
Proof.
  intros Ha. unfold Float.to_int.
  destruct (0 <=? Float.expo a) eqn:He.
  - apply Z.leb_le in He.
    assert (0 < 2 ^ Float.expo a) by (apply Z.pow_pos_nonneg; lia). nia.
  - apply Z.leb_gt in He. apply Z.quot_pos; [assumption|].
    apply Z.pow_pos_nonneg; lia.
Qed.

(** [int(n * c)] is not negative for a non-negative [n] and [c]. *)
Lemma int_mul_nonneg (n : Z) (c : Float.float) :
  0 <= n -> 0 <= Float.mant c -> 0 <= Float.int_mul n c.
Proof.
  intros Hn Hc. unfold Float.int_mul. apply to_int_nonneg.
  unfold Float.mul. apply round53_nonneg.
  pose proof (round53_nonneg n 0 Hn) as H. unfold Float.of_int. nia.
Qed.

(** Multiplying by [0.25] is exact, so [int(n * 0.25)] is the quotient of
    [n] by 4. *)
Lemma int_mul_quarter (n : Z) :
  0 <= n < 2 ^ 53 -> Float.int_mul n Float.f0_25 = n / 4.
Proof.
  intros Hn. unfold Float.int_mul, Float.of_int, Float.mul.
  rewrite (round53_exact n 0) by assumption.
  cbn [Float.mant Float.expo Float.f0_25].
  rewrite Z.mul_1_r. rewrite round53_exact by assumption.
  unfold Float.to_int. cbn [Float.mant Float.expo].
  change (0 <=? 0 + -2) with false. cbv iota.
  change (2 ^ (- (0 + -2))) with 4.
  apply Z.quot_div_nonneg; lia.
Qed.

(** ** Layout composer *)

Lemma layout_line_spacing (self : QuoteStudio) (font : Font) (max_width : Z) :
  line_spacing (compute_text_layout self font max_width)
  = Z.max 6 (Float.int_mul (font_size self) Float.f0_25).
Proof.
  unfold compute_text_layout.
  destruct (measure_multiline _ font _) as [[q_w q_h] q_hs].
  destruct (measure_multiline _ font _) as [[a_w a_h] a_hs].
  reflexivity.
Qed.

(** C4, as the code has it. For every font size in [10,200] the layout
    composer's line spacing is max(6, floor(font_size / 4)): the product
    font_size * 0.25 is truncated to an integer, not rounded to the nearest
    one. *)
Theorem line_spacing_truncates (self : QuoteStudio) (font : Font)
    (max_width : Z) :
  10 <= font_size self <= 200 ->
  line_spacing (compute_text_layout self font max_width)
  = Z.max 6 (font_size self / 4).
Proof.
  intros Hfs. rewrite layout_line_spacing.
  rewrite int_mul_quarter; [reflexivity|].
  split; [lia|]. apply Z.le_lt_trans with 200; [lia | reflexivity].
Qed.

Lemma line_spacing_truncates_witness :
  10 <= font_size (demo_session (lit "Hello") [] 27 (10, 10)) <= 200
  /\ line_spacing
       (compute_text_layout (demo_session (lit "Hello") [] 27 (10, 10))
          mono_font 180)
     = Z.max 6 (27 / 4).
Proof.
  split; [simpl; lia|].
  apply (line_spacing_truncates
           (demo_session (lit "Hello") [] 27 (10, 10)) mono_font 180).
  simpl; lia.
Defined.

(** C4, as stated, fails at font size 27: 27 * 0.25 = 6.75 rounds to 7,
    while the composer's line spacing is 6. *)
Lemma line_spacing_not_rounded :
  10 <= 27 <= 200
  /\ line_spacing
       (compute_text_layout (demo_session (lit "Hello") [] 27 (10, 10))
          mono_font 180)
     <> rounded_line_spacing 27.
Proof.
  split; [lia|]. vm_compute. discriminate.
Qed.

(** The layout, with the two measurements named. *)
Lemma compute_text_layout_eq (self : QuoteStudio) (font : Font)
    (max_width : Z) :
  compute_text_layout self font max_width
  = let quote_lines :=
      if truthy (quote self) then wrap_text (quote self) font max_width
      else [] in
    let line_spacing :=
      Z.max 6 (Float.int_mul (font_size self) Float.f0_25) in
    let q := measure_multiline quote_lines font line_spacing in
    let author_block_lines :=
      if truthy (strip (author self)) then
        [] :: wrap_text (author_marker ++ strip (author self)) font max_width
      else [] in
    let a :=
      measure_multiline
        (filter (fun ln => negb (eqb ln [])) author_block_lines)
        font line_spacing in
    let spacer_h :=
      if nonempty author_block_lines then
        if nonempty (snd q)
        then Float.int_mul (last (snd q) 0) Float.f0_6
        else Float.int_mul (font_size self) Float.f0_6
      else 0 in
    mkLayout quote_lines author_block_lines
      (Z.max (fst (fst q)) (fst (fst a)),
       snd (fst q) + (if nonempty author_block_lines then spacer_h else 0)
       + snd (fst a))
      line_spacing spacer_h.
Proof.
  unfold compute_text_layout.
  destruct (measure_multiline _ font _) as [[q_w q_h] q_hs].
  destruct (measure_multiline _ font _) as [[a_w a_h] a_hs].
  reflexivity.
Qed.

Lemma wrap_text_lines_nonempty (text : str) (font : Font) (max_width : Z) :
  Forall (fun ln => ln <> []) (wrap_text text font max_width).
Proof.
  destruct (wrap_text_groups font max_width text)
    as (groups & Hlines & Hcat & Hne).
  rewrite Hlines. apply Forall_map.
  pose proof (split_words text) as Hwords. rewrite <- Hcat in Hwords.
  apply Forall_concat in Hwords.
  rewrite Forall_forall in *. intros g Hg Hnil.
  apply (Hne g Hg). apply join_words_nil; [|assumption].
  exact (Hwords g Hg).
Qed.

Lemma filter_nonempty_lines (lines : list str) :
  Forall (fun ln => ln <> []) lines ->
  filter (fun ln => negb (eqb ln [])) lines = lines.
Proof.
  intros H. apply forallb_filter_id. apply forallb_forall.
  rewrite Forall_forall in H. intros ln Hln.
  rewrite eqb_nil, negb_involutive. apply truthy_true. now apply H.
Qed.

(** C3, as the code has it. When the quote text is empty and the trimmed
    author text is not, the layout has no quote lines, its author block is
    one spacer line followed by the wrapped author lines, the spacer height
    is int(font_size * 0.6), and the total height is the spacer height plus
    the height of the author lines. *)
Theorem author_block_keeps_spacer (self : QuoteStudio) (font : Font)
    (max_width : Z) :
  quote self = [] -> strip (author self) <> [] ->
  let layout := compute_text_layout self font max_width in
  let author_lines :=
    wrap_text (author_marker ++ strip (author self)) font max_width in
  quote_lines layout = []
  /\ author_block_lines layout = [] :: author_lines
  /\ spacer_h layout = Float.int_mul (font_size self) Float.f0_6
  /\ snd (total_size layout)
     = spacer_h layout
       + snd (fst (measure_multiline author_lines font
                     (line_spacing layout))).
Proof.
  intros Hq Ha. cbv zeta. rewrite compute_text_layout_eq. cbv zeta.
  rewrite Hq. cbn [truthy].
  apply truthy_true in Ha. rewrite Ha.
  cbn [quote_lines author_block_lines spacer_h total_size line_spacing
       nonempty snd fst].
  cbn [filter]. change (eqb [] []) with true. cbn [negb].
  rewrite filter_nonempty_lines by apply wrap_text_lines_nonempty.
  rewrite measure_multiline_eq. cbn [snd fst map nonempty].
  repeat split; reflexivity.
Qed.

Lemma author_block_keeps_spacer_witness :
  quote (demo_session [] (lit "Jane Doe") 64 (10, 10)) = []
  /\ strip (author (demo_session [] (lit "Jane Doe") 64 (10, 10))) <> []
  /\ let self := demo_session [] (lit "Jane Doe") 64 (10, 10) in
     let layout := compute_text_layout self mono_font 180 in
     let author_lines :=
       wrap_text (author_marker ++ strip (author self)) mono_font 180 in
     quote_lines layout = []
     /\ author_block_lines layout = [] :: author_lines
     /\ spacer_h layout = Float.int_mul (font_size self) Float.f0_6
     /\ snd (total_size layout)
        = spacer_h layout
          + snd (fst (measure_multiline author_lines mono_font
                        (line_spacing layout))).
Proof.
  split; [reflexivity|]. split; [vm_compute; discriminate|].
  apply (author_block_keeps_spacer
           (demo_session [] (lit "Jane Doe") 64 (10, 10)) mono_font 180).
  - reflexivity.
  - vm_compute; discriminate.
Defined.

(** C3, as stated, fails for an empty quote and the author "Jane Doe": the
    author block starts with a spacer line and the total height, 58, is the
    spacer height 38 above the height 20 of the author line. *)
Lemma author_block_not_alone :
  ~ author_block_only (demo_session [] (lit "Jane Doe") 64 (10, 10))
      mono_font 180.
Proof.
  intros [Hlines Hheight]. vm_compute in Hheight. discriminate.
Qed.

(** ** Bounding box *)

(** The box at an anchor is the anchor and the anchor moved by the total
    size of the layout, whatever the anchor. *)
Lemma compute_text_bbox_shape (env : Env) (self : QuoteStudio)
    (x y x0 y0 x1 y1 : Z) :
  compute_text_bbox env self x y = Some (x0, y0, x1, y1) ->
  x0 = x /\ y0 = y
  /\ forall x' y',
       compute_text_bbox env self x' y'
       = Some (x', y', x' + (x1 - x0), y' + (y1 - y0)).
Proof.
  unfold compute_text_bbox.
  destruct (total_size _) as [total_w total_h].
  destruct ((total_w =? 0) || (total_h =? 0)); [discriminate|].
  intros H. injection H as <- <- <- <-.
  split; [reflexivity|]. split; [reflexivity|].
  intros x' y'. do 2 f_equal; [f_equal |]; lia.
Qed.

(** Moving the anchor does not change the layout. *)
Lemma compute_text_bbox_set_text_pos (env : Env) (self : QuoteStudio)
    (p : Z * Z) (x y : Z) :
  compute_text_bbox env (set_text_pos p self) x y
  = compute_text_bbox env self x y.
Proof. reflexivity. Qed.

Lemma measure_width_nonneg (lines : list str) (font : Font) (S : Z) :
  0 <= fst (fst (measure_multiline lines font S)).
Proof.
  rewrite measure_multiline_eq. cbn [fst]. apply fold_max_ge.
Qed.

Lemma sum_nonneg (xs : list Z) :
  Forall (fun x => 0 <= x) xs -> 0 <= fold_right Z.add 0 xs.
Proof.
  induction 1 as [|x xs Hx _ IH]; simpl; lia.
Qed.

Lemma heights_nonneg (font : Font) (lines : list str) :
  font_wf font -> Forall (fun x => 0 <= x) (map (text_height font) lines).
Proof.
  intros Hwf. apply Forall_map. apply Forall_forall.
  intros ln _. apply Hwf.
Qed.

Lemma measure_height_nonneg (lines : list str) (font : Font) (S : Z) :
  font_wf font -> 0 <= S ->
  0 <= snd (fst (measure_multiline lines font S)).
Proof.
  intros Hwf HS. rewrite measure_multiline_eq. cbn [fst snd].
  destruct lines as [|ln lines]; [lia|].
  pose proof (sum_nonneg _ (heights_nonneg font (ln :: lines) Hwf)).
  cbn [length]. nia.
Qed.

Lemma last_nonneg (xs : list Z) :
  Forall (fun x => 0 <= x) xs -> 0 <= last xs 0.
Proof.
  induction 1 as [|x xs Hx Hxs IH]; [simpl; lia|].
  destruct xs; [exact Hx | exact IH].
Qed.

(** With a font whose boxes are well formed and a non-negative font size,
    the total size of a layout is not negative. *)
Lemma total_size_nonneg (self : QuoteStudio) (font : Font) (max_width : Z) :
  font_wf font -> 0 <= font_size self ->
  0 <= fst (total_size (compute_text_layout self font max_width))
  /\ 0 <= snd (total_size (compute_text_layout self font max_width)).
Proof.
  intros Hwf Hfs. rewrite compute_text_layout_eq. cbv zeta.
  cbn [total_size fst snd].
  set (ls := Z.max 6 (Float.int_mul (font_size self) Float.f0_25)).
  assert (Hls : 0 <= ls) by (unfold ls; lia).
  split.
  - pose proof (measure_width_nonneg
                  (if truthy (quote self)
                   then wrap_text (quote self) font max_width else [])
                  font ls). lia.
  - match goal with
    | |- 0 <= snd (fst (measure_multiline ?ql _ _)) + ?sp
              + snd (fst (measure_multiline ?al _ _)) =>
        pose proof (measure_height_nonneg ql font ls Hwf Hls) as Hq;
        pose proof (measure_height_nonneg al font ls Hwf Hls) as Ha;
        assert (Hsp : 0 <= sp)
    end.
    { destruct (nonempty _); [|lia].
      destruct (nonempty _).
      - apply int_mul_nonneg; [|vm_compute; discriminate].
        apply last_nonneg. rewrite measure_multiline_eq. cbn [snd].
        now apply heights_nonneg.
      - apply int_mul_nonneg; [assumption | vm_compute; discriminate]. }
    lia.
Qed.

(** A present bounding box has its corners in order. *)
Lemma current_bbox_ordered (env : Env) (self : QuoteStudio)
    (x0 y0 x1 y1 : Z) :
  font_wf (pick_style_font env self (font_size self)) ->
  0 <= font_size self ->
  current_bbox env self = Some (x0, y0, x1, y1) ->
  x0 <= x1 /\ y0 <= y1.
Proof.
  intros Hwf Hfs. unfold current_bbox, compute_text_bbox.
  pose proof (total_size_nonneg self
                (pick_style_font env self (font_size self))
                (text_max_width self (filtered_bg self)) Hwf Hfs) as Hsz.
  revert Hsz.
  destruct (total_size _) as [total_w total_h]. cbn [fst snd].
  intros [Hw Hh].
  destruct ((total_w =? 0) || (total_h =? 0)); [discriminate|].
  intros H. injection H as <- <- <- <-. lia.
Qed.

(** ** Bounds clamper and hit tester *)

(** The correction the clamp computes along one axis, for a box from [lo]
    to [hi] on a canvas of extent [w]. *)
Lemma clamp_offset (lo hi w : Z) :
  hi - lo <= w ->
  let d0 := if lo <? 0 then - lo else 0 in
  let d := if hi >? w then (if w - hi <? d0 then w - hi else w - hi)
           else d0 in
  0 <= lo + d /\ hi + d <= w /\ (0 <= lo -> hi <= w -> d = 0).
Proof.
  intros Hfit. cbv zeta. rewrite Z.gtb_ltb.
  destruct (Z.ltb_spec lo 0), (Z.ltb_spec w hi);
    try destruct (w - hi <? _); lia.
Qed.

(** C6. For every session whose text box is no wider and no higher than the
    canvas, after the clamp the box, translated with the anchor, satisfies
    0 <= x0, x1 <= canvas width, 0 <= y0 and y1 <= canvas height; and when
    the box is already inside the canvas the clamp leaves the anchor where
    it is. *)
Theorem clamp_text_within_spec (env : Env) (self : QuoteStudio)
    (x0 y0 x1 y1 : Z) :
  current_bbox env self = Some (x0, y0, x1, y1) ->
  x1 - x0 <= width (base_image self) ->
  y1 - y0 <= height (base_image self) ->
  let self' := clamp_text_within env self in
  let dx := fst (text_pos self') - fst (text_pos self) in
  let dy := snd (text_pos self') - snd (text_pos self) in
  current_bbox env self' = Some (x0 + dx, y0 + dy, x1 + dx, y1 + dy)
  /\ inside_canvas (size (base_image self))
       (x0 + dx, y0 + dy, x1 + dx, y1 + dy)
  /\ (inside_canvas (size (base_image self)) (x0, y0, x1, y1) ->
      text_pos self' = text_pos self).
Proof.
  intros Hbox Hw Hh.
  destruct (compute_text_bbox_shape _ _ _ _ _ _ _ _ Hbox)
    as (Hx0 & Hy0 & Hshape).
  unfold clamp_text_within. unfold current_bbox in Hbox.
  cbn [size]. rewrite Hbox. cbv zeta.
  unfold current_bbox, inside_canvas.
  cbn [text_pos set_text_pos fst snd base_image size].
  rewrite compute_text_bbox_set_text_pos, Hshape.
  destruct (text_pos self) as [px py]. cbn [fst snd] in *. subst px py.
  pose proof (clamp_offset x0 x1 (width (base_image self)) Hw) as Hdx.
  pose proof (clamp_offset y0 y1 (height (base_image self)) Hh) as Hdy.
  cbv zeta in Hdx, Hdy. revert Hdx Hdy.
  generalize (if x1 >? width (base_image self)
              then (if width (base_image self) - x1
                       <? (if x0 <? 0 then - x0 else 0)
                    then width (base_image self) - x1
                    else width (base_image self) - x1)
              else (if x0 <? 0 then - x0 else 0)).
  generalize (if y1 >? height (base_image self)
              then (if height (base_image self) - y1
                       <? (if y0 <? 0 then - y0 else 0)
                    then height (base_image self) - y1
                    else height (base_image self) - y1)
              else (if y0 <? 0 then - y0 else 0)).
  intros dy dx (Hx_lo & Hx_hi & Hx_id) (Hy_lo & Hy_hi & Hy_id).
  replace (x0 + dx - x0) with dx by lia.
  replace (y0 + dy - y0) with dy by lia.
  replace (x0 + dx + (x1 - x0)) with (x1 + dx) by lia.
  replace (y0 + dy + (y1 - y0)) with (y1 + dy) by lia.
  split; [reflexivity|]. split; [lia|].
  intros (? & ? & ? & ?). rewrite Hx_id, Hy_id by assumption.
  now rewrite !Z.add_0_r.
Qed.

Lemma clamp_text_within_spec_witness :
  current_bbox demo_env (demo_session (lit "Hello world") [] 64 (150, -10))
  = Some (150, -10, 260, 10)
  /\ text_pos (clamp_text_within demo_env
                 (demo_session (lit "Hello world") [] 64 (150, -10)))
     = (90, 0)
  /\ let self := demo_session (lit "Hello world") [] 64 (150, -10) in
     let self' := clamp_text_within demo_env self in
     let dx := fst (text_pos self') - fst (text_pos self) in
     let dy := snd (text_pos self') - snd (text_pos self) in
     current_bbox demo_env self'
     = Some (150 + dx, -10 + dy, 260 + dx, 10 + dy)
     /\ inside_canvas (size (base_image self))
          (150 + dx, -10 + dy, 260 + dx, 10 + dy)
     /\ (inside_canvas (size (base_image self)) (150, -10, 260, 10) ->
         text_pos self' = text_pos self).
Proof.
  split; [vm_compute; reflexivity|]. split; [vm_compute; reflexivity|].
  apply (clamp_text_within_spec demo_env
           (demo_session (lit "Hello world") [] 64 (150, -10))
           150 (-10) 260 10).
  - vm_compute; reflexivity.
  - vm_compute; discriminate.
  - vm_compute; discriminate.
Defined.

(** C7. For every point (x, y) and every present bounding box
    (x0, y0, x1, y1), the hit test returns true exactly when x0 <= x <= x1
    and y0 <= y <= y1; a point strictly outside the box on either axis tests
    as outside; and, the box of a well-formed font and a non-negative font
    size having its corners in order, the corners (x0, y0) and (x1, y1)
    test as inside. *)
Theorem point_in_text_bbox_spec (env : Env) (self : QuoteStudio)
    (x0 y0 x1 y1 : Z) :
  current_bbox env self = Some (x0, y0, x1, y1) ->
  (forall x y,
     point_in_text_bbox env self x y = true
     <-> (x0 <= x <= x1 /\ y0 <= y <= y1))
  /\ (forall x y,
        x < x0 \/ x1 < x \/ y < y0 \/ y1 < y ->
        point_in_text_bbox env self x y = false)
  /\ (font_wf (pick_style_font env self (font_size self)) ->
      0 <= font_size self ->
      point_in_text_bbox env self x0 y0 = true
      /\ point_in_text_bbox env self x1 y1 = true).
Proof.
  intros Hbox.
  assert (Hiff : forall x y,
             point_in_text_bbox env self x y = true
             <-> (x0 <= x <= x1 /\ y0 <= y <= y1)).
  { intros x y. unfold point_in_text_bbox.
    unfold current_bbox in Hbox. rewrite Hbox.
    rewrite !andb_true_iff, !Z.leb_le. tauto. }
  split; [exact Hiff|]. split.
  - intros x y Hout.
    destruct (point_in_text_bbox env self x y) eqn:Hhit; [|reflexivity].
    apply Hiff in Hhit. lia.
  - intros Hwf Hfs.
    destruct (current_bbox_ordered env self x0 y0 x1 y1 Hwf Hfs Hbox).
    split; apply Hiff; lia.
Qed.

Lemma mono_font_wf : font_wf mono_font.
Proof.
  intros s. unfold text_width, text_height. cbn [textbbox mono_font].
  split; [lia|]. destruct (truthy s); lia.
Qed.

Lemma point_in_text_bbox_spec_witness :
  current_bbox demo_env (demo_session (lit "Hello world") [] 64 (10, 10))
  = Some (10, 10, 120, 30)
  /\ point_in_text_bbox demo_env
       (demo_session (lit "Hello world") [] 64 (10, 10)) 10 10 = true
  /\ point_in_text_bbox demo_env
       (demo_session (lit "Hello world") [] 64 (10, 10)) 120 30 = true
  /\ point_in_text_bbox demo_env
       (demo_session (lit "Hello world") [] 64 (10, 10)) 121 30 = false.
Proof.
  pose proof (point_in_text_bbox_spec demo_env
                (demo_session (lit "Hello world") [] 64 (10, 10))
                10 10 120 30 ltac:(vm_compute; reflexivity))
    as (Hiff & Hout & Hcorners).
  split; [vm_compute; reflexivity|].
  destruct (Hcorners mono_font_wf ltac:(vm_compute; discriminate))
    as [Hc0 Hc1].
  split; [exact Hc0|]. split; [exact Hc1|].
  apply Hout. lia.
Defined.

(** ** Style filter *)

(** The luma of a grey pixel is its grey level. *)
Lemma rgb2l_grey (p : Z * Z * Z) : rgb2l (l2rgb (rgb2l p)) = rgb2l p.
Proof.
  set (l := rgb2l p).
  assert (Hl : 0 <= l < 256).
  { unfold l, rgb2l. destruct p as [[r g] b]. apply Z.mod_pos_bound. lia. }
  unfold l2rgb, rgb2l. rewrite Z.shiftr_div_pow2 by lia.
  change (2 ^ 16) with 65536.
  replace (l * 19595 + l * 38470 + l * 7471 + 32768)
    with (l * 65536 + 32768) by lia.
  rewrite Z.div_add_l by lia.
  change (32768 / 65536) with 0. rewrite Z.add_0_r.
  apply Z.mod_small. exact Hl.
Qed.

Lemma convert_RGB_of_RGB (img : Image) :
  img_mode img = RGB -> convert_RGB img = img.
Proof.
  destruct img as [w h [px | px | px]]; unfold img_mode; cbn;
    intros H; (discriminate || reflexivity).
Qed.

Lemma convert_RGB_mode (img : Image) : img_mode (convert_RGB img) = RGB.
Proof. destruct img as [w h [px | px | px]]; reflexivity. Qed.

Lemma convert_RGB_size (img : Image) : size (convert_RGB img) = size img.
Proof. reflexivity. Qed.

Lemma apply_style_Noir (lib : PIL) (bg : Image) :
  apply_style lib bg (lit "Noir")
  = inr (convert_RGB (grayscale (convert_RGB bg))).
Proof.
  unfold apply_style.
  replace (eqb (lit "Noir") (lit "None")) with false
    by (vm_compute; reflexivity).
  replace (eqb (lit "Noir") (lit "Epic")) with false
    by (vm_compute; reflexivity).
  replace (eqb (lit "Noir") (lit "Noir")) with true
    by (vm_compute; reflexivity).
  reflexivity.
Qed.

Lemma noir_projection (bg : Image) :
  convert_RGB (grayscale (convert_RGB
    (convert_RGB (grayscale (convert_RGB bg)))))
  = convert_RGB (grayscale (convert_RGB bg)).
Proof.
  destruct bg as [w h [px | px | px]]; unfold convert_RGB, grayscale;
    cbn [pixels width height]; f_equal; f_equal.
  - rewrite !map_map. apply map_ext. intros l.
    f_equal. apply (rgb2l_grey (l2rgb l)).
  - rewrite !map_map. apply map_ext. intros p.
    f_equal. apply rgb2l_grey.
  - rewrite !map_map. apply map_ext. intros p.
    f_equal. apply (rgb2l_grey (rgba2rgb p)).
Qed.

(** C8. The Noir style is idempotent: for every input raster the filter
    returns a raster, and applying Noir to that raster returns it again,
    pixel for pixel. *)
Theorem noir_idempotent (lib : PIL) (bg : Image) :
  exists once,
    apply_style lib bg (lit "Noir") = inr once
    /\ apply_style lib once (lit "Noir") = inr once.
Proof.
  exists (convert_RGB (grayscale (convert_RGB bg))).
  split; [apply apply_style_Noir|].
  rewrite apply_style_Noir. f_equal. apply noir_projection.
Qed.

Lemma swap_red_blue_mode (img : Image) :
  img_mode (swap_red_blue img) = img_mode img.
Proof. destruct img as [w h [px | px | px]]; reflexivity. Qed.

Lemma apply_style_unknown (lib : PIL) (bg : Image) (style_name : str) :
  ~ In style_name STYLE_NAMES ->
  apply_style lib bg style_name = inr (convert_RGB bg).
Proof.
  intros Hnot. unfold apply_style.
  repeat match goal with
         | |- context [eqb style_name (lit ?n)] =>
             let E := fresh "E" in
             destruct (eqb style_name (lit n)) eqn:E;
             [ apply eqb_true_iff in E; exfalso; apply Hnot; rewrite E;
               vm_compute; tauto
             | ]
         end.
  reflexivity.
Qed.

(** What one library call of the contract yields. *)
Ltac library_call H img out :=
  let E := fresh "E" in
  let Hs := fresh "Hs" in
  let Hm := fresh "Hm" in
  destruct (H img) as (out & E & Hs & Hm);
  cbv beta in E; rewrite E; cbn [rbind].

(** C10. For every input raster and every style name, recognized or not,
    and an imaging library that keeps its contract, the style filter
    returns an RGB raster with the width and height of its input; for a
    style name outside the enumerated set it returns the input converted to
    RGB, which is the input itself when the input is RGB. *)
Theorem apply_style_preserves_size (lib : PIL) (bg : Image)
    (style_name : str) :
  PIL_contract lib ->
  (exists out,
     apply_style lib bg style_name = inr out
     /\ size out = size bg /\ img_mode out = RGB)
  /\ (~ In style_name STYLE_NAMES ->
      apply_style lib bg style_name = inr (convert_RGB bg)
      /\ (img_mode bg = RGB -> apply_style lib bg style_name = inr bg)).
Proof.
  intros Hlib. split.
  2:{ intros Hnot. rewrite apply_style_unknown by assumption.
      split; [reflexivity|]. intros Hm. now rewrite convert_RGB_of_RGB. }
  unfold apply_style.
  pose proof (convert_RGB_mode bg) as Hm0.
  pose proof (convert_RGB_size bg) as Hs0.
  set (img0 := convert_RGB bg) in *.
  destruct (eqb style_name (lit "None")).
  { exists img0. repeat split; assumption. }
  destruct (eqb style_name (lit "Epic")).
  { library_call (Contrast_ok lib Hlib Float.f1_5) img0 i1.
    library_call (GaussianBlur_ok lib Hlib 3) i1 i2.
    exists i2. repeat split; congruence. }
  destruct (eqb style_name (lit "Noir")).
  { exists (convert_RGB (grayscale img0)).
    split; [reflexivity|]. split; [exact Hs0 | apply convert_RGB_mode]. }
  destruct (eqb style_name (lit "Fancy")).
  { library_call (Color_ok lib Hlib Float.f1_6) img0 i1.
    exists i1. repeat split; congruence. }
  destruct (eqb style_name (lit "Cyberpunk")).
  { pose proof (swap_red_blue_mode img0) as Hm1.
    assert (Hs1 : size (swap_red_blue img0) = size img0) by reflexivity.
    library_call (Color_ok lib Hlib Float.f1_2) (swap_red_blue img0) i1.
    library_call (Contrast_ok lib Hlib Float.f1_1) i1 i2.
    exists i2. repeat split; congruence. }
  destruct (eqb style_name (lit "Phonk")).
  { library_call (Brightness_ok lib Hlib Float.f0_75) img0 i1.
    destruct (blend_ok lib Hlib i1 (new_RGB (size i1) (40, 0, 60))
                Float.f0_2) as (i2 & E2 & Hs2 & Hm2).
    { reflexivity. }
    { change (img_mode (new_RGB (size i1) (40, 0, 60))) with RGB.
      congruence. }
    rewrite E2. cbn [rbind].
    library_call (Contrast_ok lib Hlib Float.f1_1) i2 i3.
    exists i3. repeat split; congruence. }
  destruct (eqb style_name (lit "Tech")).
  { library_call (UnsharpMask_ok lib Hlib 2 200 3) img0 i1.
    exists i1. repeat split; congruence. }
  exists img0. repeat split; assumption.
Qed.

Lemma still_pil_contract : PIL_contract still_pil.
Proof.
  constructor; try (intros; intros img; exists img; repeat split).
  intros a b f Hs Hm. exists a. repeat split.
Qed.

Lemma apply_style_preserves_size_witness :
  apply_style still_pil demo_pixels (lit "Cyberpunk")
  = inr (mkImage 3 1 (PxRGB [(0, 0, 255); (77, 200, 12); (255, 0, 0)]))
  /\ apply_style still_pil demo_pixels (lit "Sepia") = inr demo_pixels
  /\ (exists out,
        apply_style still_pil demo_pixels (lit "Cyberpunk") = inr out
        /\ size out = size demo_pixels /\ img_mode out = RGB)
  /\ (~ In (lit "Sepia") STYLE_NAMES ->
      apply_style still_pil demo_pixels (lit "Sepia")
      = inr (convert_RGB demo_pixels)
      /\ (img_mode demo_pixels = RGB ->
          apply_style still_pil demo_pixels (lit "Sepia") = inr demo_pixels)).
Proof.
  split; [vm_compute; reflexivity|]. split; [vm_compute; reflexivity|].
  split.
  - apply (apply_style_preserves_size still_pil demo_pixels
             (lit "Cyberpunk") still_pil_contract).
  - apply (apply_style_preserves_size still_pil demo_pixels
             (lit "Sepia") still_pil_contract).
Defined.

(** ** The recompute pass *)

(** [compose_final] assigns to the preview's text box only: the displayed
    raster and the pixmap are the caller's to assign. *)
Lemma compose_final_frame (env : Env) (shadow : bool) (self : QuoteStudio) :
  result_image (snd (compose_final env shadow self)) = result_image self
  /\ preview_pixmap (snd (compose_final env shadow self))
     = preview_pixmap self
  /\ stdout (snd (compose_final env shadow self)) = stdout self.
Proof.
  unfold compose_final, bind, get, lift, modify, ret.
  destruct (apply_style _ _ _) as [e | bg]; [repeat split|].
  destruct (draw_text_with_shadow _ _ _ _ _ _ _)
    as [e | [out [[[x0 y0] x1] y1]]];
    repeat split.
Qed.

(** A pass of [recompute], step by step. *)
Lemma recompute_run (env : Env) (self : QuoteStudio) :
  recompute env self
  = match apply_style (pil env) (base_image self) (current_style self) with
    | inl e => handled e self
    | inr bg =>
        match compose_final env true (set_filtered_bg bg self) with
        | (inl e, s2) => handled e s2
        | (inr out, s2) =>
            match update_preview_pixmap env (set_result_image out s2) with
            | (inl e, s3) => handled e s3
            | (inr u, s3) => (inr u, s3)
            end
        end
    end.
Proof.
  unfold recompute, try_except_Exception, handled, bind, get, lift, modify.
  destruct (apply_style _ _ _) as [e | bg]; [reflexivity|].
  destruct (compose_final env true _) as [[e | out] s2]; [reflexivity|].
  destruct (update_preview_pixmap env _) as [[e | u] s3]; reflexivity.
Qed.

(** C9, as the code has it. For every exception that the style filter or
    [compose_final] raises in a recompute pass, the displayed raster and the
    pixmap shown are what they were before the pass.  The handler is
    [except Exception]: an instance of Exception is caught, the pass returns
    normally and has printed it; anything else (an interrupt, an exit)
    propagates out of the pass. *)
Theorem recompute_keeps_last_render (env : Env) (self : QuoteStudio)
    (e : exn) :
  render_fails env self e ->
  result_image (snd (recompute env self)) = result_image self
  /\ preview_pixmap (snd (recompute env self)) = preview_pixmap self
  /\ (is_Exception e = true ->
      fst (recompute env self) = inr tt
      /\ stdout (snd (recompute env self)) = stdout self ++ [e])
  /\ (is_Exception e = false ->
      fst (recompute env self) = inl e
      /\ stdout (snd (recompute env self)) = stdout self).
Proof.
  intros Hfail. rewrite recompute_run.
  destruct Hfail as [Hstyle | (bg & Hstyle & Hcompose)]; rewrite Hstyle.
  - unfold handled. destruct (is_Exception e); repeat split; discriminate.
  - pose proof (compose_final_frame env true (set_filtered_bg bg self))
      as Hframe.
    revert Hcompose Hframe.
    destruct (compose_final env true (set_filtered_bg bg self))
      as [r s2].
    cbn [fst snd]. intros -> (Hres & Hpix & Hout).
    cbn [result_image preview_pixmap stdout set_filtered_bg] in Hres, Hpix,
      Hout.
    unfold handled. destruct (is_Exception e); cbn [fst snd].
    + repeat split; cbn [result_image preview_pixmap stdout print_error];
        congruence.
    + repeat split; try assumption; discriminate.
Qed.

Lemma recompute_keeps_last_render_witness :
  render_fails failing_env
    (demo_session (lit "Hello world") [] 64 (10, 10)) ValueError
  /\ fst (recompute failing_env
            (demo_session (lit "Hello world") [] 64 (10, 10))) = inr tt
  /\ result_image
       (snd (recompute failing_env
               (demo_session (lit "Hello world") [] 64 (10, 10))))
     = demo_image.
Proof.
  assert (Hfail : render_fails failing_env
                    (demo_session (lit "Hello world") [] 64 (10, 10))
                    ValueError).
  { right. exists demo_image. split; reflexivity. }
  split; [exact Hfail|].
  destruct (recompute_keeps_last_render failing_env
              (demo_session (lit "Hello world") [] 64 (10, 10))
              ValueError Hfail) as (Hres & _ & Hcaught & _).
  split; [apply Hcaught; reflexivity | exact Hres].
Defined.

(** C9, as stated, fails for an exception that is not an instance of
    Exception: an interrupt raised while the text is drawn is not caught by
    the pass, which propagates it instead of returning. *)
Lemma recompute_propagates_interrupt :
  render_fails interrupted_env
    (demo_session (lit "Hello world") [] 64 (10, 10)) KeyboardInterrupt
  /\ fst (recompute interrupted_env
            (demo_session (lit "Hello world") [] 64 (10, 10)))
     = inl KeyboardInterrupt
  /\ fst (recompute interrupted_env
            (demo_session (lit "Hello world") [] 64 (10, 10)))
     <> inr tt.
Proof.
  split.
  - right. exists demo_image. split; reflexivity.
  - split; [reflexivity | discriminate].
Qed.


(** * Further properties *)

(** ** Text wrapper *)

(** The wrapper looks at the text through its words only. *)
Lemma wrap_text_loop_form (text : str) (font : Font) (max_width : Z) :
  wrap_text text font max_width
  = let '(lines, line) :=
      wrap_loop font max_width (split text) wrap_init in
    if truthy line then lines ++ [line] else lines.
Proof. destruct text; reflexivity. Qed.

Lemma concat_nonempty_nil {A} (groups : list (list A)) :
  Forall (fun g => g <> []) groups -> concat groups = [] -> groups = [].
Proof.
  intros Hne Hcat. destruct groups as [|g groups]; [reflexivity|].
  inversion Hne as [|? ? Hg _]; subst. simpl in Hcat.
  destruct g; [congruence | discriminate].
Qed.

Lemma concat_nonempty_length {A} (groups : list (list A)) :
  Forall (fun g => g <> []) groups ->
  (length groups <= length (concat groups))%nat.
Proof.
  induction 1 as [|g groups Hg _ IH]; simpl; [lia|].
  rewrite length_app. destruct g; [congruence | simpl; lia].
Qed.

(** X1. The wrapper's lines depend on the text through its words alone: two
    texts with the same words wrap to the same lines, and normalizing the
    whitespace of a text before wrapping changes nothing. *)
Theorem wrap_text_words_only (text text' : str) (font : Font)
    (max_width : Z) :
  split text = split text' ->
  wrap_text text font max_width = wrap_text text' font max_width
  /\ wrap_text (join space (split text)) font max_width
     = wrap_text text font max_width.
Proof.
  intros Hwords. split.
  - rewrite !wrap_text_loop_form. now rewrite Hwords.
  - rewrite !wrap_text_loop_form.
    rewrite split_join by apply split_words. reflexivity.
Qed.

Lemma wrap_text_words_only_witness :
  split (lit "to be  or not") = split (lit " to be or   not ")
  /\ wrap_text (lit "to be  or not") mono_font 50
     = wrap_text (lit " to be or   not ") mono_font 50.
Proof.
  split; [reflexivity|].
  apply (wrap_text_words_only (lit "to be  or not")
           (lit " to be or   not ") mono_font 50).
  reflexivity.
Defined.

(** X2. The wrapper returns no line exactly when the text has no word
    (empty or all whitespace), and never more lines than the text has
    words. *)
Theorem wrap_text_line_count (text : str) (font : Font) (max_width : Z) :
  (wrap_text text font max_width = [] <-> split text = [])
  /\ (length (wrap_text text font max_width) <= length (split text))%nat.
Proof.
  destruct (wrap_text_groups font max_width text)
    as (groups & Hlines & Hcat & Hne).
  rewrite Hlines, <- Hcat. split; [split|].
  - intros H. apply map_eq_nil in H. now subst groups.
  - intros H. apply concat_nonempty_nil in H; [|assumption].
    now subst groups.
  - rewrite length_map. now apply concat_nonempty_length.
Qed.

(** X3. Every line is non-empty and already normalized: it neither starts
    nor ends with whitespace and its words are separated by single spaces,
    so splitting it and joining it back gives the line. *)
Theorem wrap_text_lines_normalized (text : str) (font : Font)
    (max_width : Z) :
  Forall (fun ln => ln <> [] /\ join space (split ln) = ln)
    (wrap_text text font max_width).
Proof.
  destruct (wrap_text_groups font max_width text)
    as (groups & Hlines & Hcat & Hne).
  rewrite Hlines. apply Forall_map.
  pose proof (split_words text) as Hwords. rewrite <- Hcat in Hwords.
  apply Forall_concat in Hwords.
  rewrite Forall_forall in *. intros g Hg. split.
  - intros Hnil. apply (Hne g Hg). apply join_words_nil; [|assumption].
    exact (Hwords g Hg).
  - rewrite split_join; [reflexivity | exact (Hwords g Hg)].
Qed.

Section GreedyWrap.

Variable font : Font.
Variable max_width : Z.

Lemma breaks_forced_grow (gs : list (list str)) (g ws : list str) :
  g <> [] ->
  breaks_forced font max_width (gs ++ [g]) ->
  breaks_forced font max_width (gs ++ [g ++ ws]).
Proof.
  intros Hg. induction gs as [|a gs IH]; intros H; [exact I|].
  destruct gs as [|b gs].
  - destruct g as [|w g]; [congruence|]. exact H.
  - destruct H as [Hab Hrest]. split; [exact Hab|]. now apply IH.
Qed.

Lemma breaks_forced_snoc (gs : list (list str)) (g : list str) (w : str) :
  breaks_forced font max_width (gs ++ [g]) ->
  max_width < text_width font (join space (g ++ [w])) ->
  breaks_forced font max_width ((gs ++ [g]) ++ [[w]]).
Proof.
  intros H Hw. induction gs as [|a gs IH].
  - simpl. split; [exact Hw | exact I].
  - destruct gs as [|b gs].
    + destruct H as [Hab _]. split; [exact Hab|].
      simpl. split; [exact Hw | exact I].
    + destruct H as [Hab Hrest]. split; [exact Hab|]. now apply IH.
Qed.

Lemma breaks_forced_at (pre : list (list str)) (a b : list str)
    (post : list (list str)) :
  breaks_forced font max_width (pre ++ a :: b :: post) ->
  exists w rest,
    b = w :: rest /\ max_width < text_width font (join space (a ++ [w])).
Proof.
  induction pre as [|p pre IH]; intros H.
  - destruct H as [Hab _]. destruct b as [|w rest]; [contradiction|].
    now exists w, rest.
  - apply IH. destruct pre; destruct H as [_ H]; exact H.
Qed.

Lemma prefixes_fit_one (w : str) : prefixes_fit font max_width [w].
Proof. intros k Hk. simpl in Hk. lia. Qed.

Lemma prefixes_fit_snoc (g : list str) (w : str) :
  prefixes_fit font max_width g ->
  text_width font (join space (g ++ [w])) <= max_width ->
  prefixes_fit font max_width (g ++ [w]).
Proof.
  intros Hg Hw k Hk. rewrite length_app in Hk. simpl in Hk.
  destruct (Nat.eq_dec k (length g + 1)) as [-> | Hne].
  - replace (length g + 1)%nat with (length (g ++ [w]))
      by (rewrite length_app; reflexivity).
    now rewrite firstn_all.
  - rewrite firstn_app.
    replace (k - length g)%nat with 0%nat by lia.
    simpl. rewrite app_nil_r. apply Hg. lia.
Qed.

(** The loop with its words grouped by line: besides holding the words in
    order, every group fits prefix by prefix and every break was forced. *)
Lemma wrap_loop_greedy (ws : list str) :
  forall (gs : list (list str)) (g : list str),
    Forall is_word ws -> Forall is_word g ->
    Forall (fun g => g <> []) gs ->
    (g = [] -> gs = []) ->
    Forall (prefixes_fit font max_width) (gs ++ [g]) ->
    breaks_forced font max_width (gs ++ [g]) ->
    exists gs' g',
      wrap_loop font max_width ws (map (join space) gs, join space g)
      = (map (join space) gs', join space g')
      /\ concat gs' ++ g' = (concat gs ++ g) ++ ws
      /\ Forall (fun g => g <> []) gs'
      /\ Forall is_word g'
      /\ (g' = [] -> gs' = [])
      /\ Forall (prefixes_fit font max_width) (gs' ++ [g'])
      /\ breaks_forced font max_width (gs' ++ [g']).
Proof.
  induction ws as [|w ws IH]; intros gs g Hws Hg Hgs Hinit Hfit Hbr.
  - exists gs, g. simpl. rewrite app_nil_r. repeat split; assumption.
  - inversion Hws as [|? ? Hw Hws']; subst.
    rewrite wrap_loop_cons. unfold wrap_step.
    assert (Htest : (if eqb (join space g) [] then w
                     else join space g ++ space ++ w)
                    = join space (g ++ [w])).
    { rewrite eqb_nil. destruct (truthy (join space g)) eqn:Ht; simpl.
      - rewrite join_snoc; [reflexivity|].
        intros ->. simpl in Ht. discriminate.
      - apply truthy_false in Ht. apply join_words_nil in Ht; [|assumption].
        subst g. reflexivity. }
    rewrite Htest.
    assert (Hgw : Forall is_word (g ++ [w])).
    { apply Forall_app. split; [assumption|]. now constructor. }
    apply Forall_app in Hfit. destruct Hfit as [Hfit_gs Hfit_g].
    inversion Hfit_g as [|? ? Hfit_g' _]; subst.
    destruct (Z.leb_spec (text_width font (join space (g ++ [w])))
                max_width) as [Hle | Hgt].
    + destruct (IH gs (g ++ [w]))
        as (gs' & g' & Hrun & Hcat & Hne & Hg' & Hi' & Hf' & Hb');
        try assumption.
      { intros H. destruct g; discriminate. }
      { apply Forall_app. split; [assumption|].
        constructor; [|constructor].
        destruct g as [|w0 g]; [apply prefixes_fit_one|].
        now apply prefixes_fit_snoc. }
      { destruct g as [|w0 g].
        - rewrite (Hinit eq_refl). exact I.
        - apply breaks_forced_grow; [discriminate | assumption]. }
      exists gs', g'. split; [exact Hrun|].
      split; [|repeat split; assumption].
      rewrite Hcat. rewrite <- !app_assoc. reflexivity.
    + destruct (truthy (join space g)) eqn:Ht.
      * assert (Hgne : g <> []).
        { intros ->. simpl in Ht. discriminate. }
        destruct (IH (gs ++ [g]) [w])
          as (gs' & g' & Hrun & Hcat & Hne & Hg' & Hi' & Hf' & Hb');
          try assumption.
        { now constructor. }
        { apply Forall_app. split; [assumption|]. now constructor. }
        { discriminate. }
        { apply Forall_app. split.
          - apply Forall_app. split; [assumption|]. now constructor.
          - constructor; [apply prefixes_fit_one | constructor]. }
        { now apply breaks_forced_snoc. }
        exists gs', g'. split.
        { rewrite map_app in Hrun. exact Hrun. }
        split; [|repeat split; assumption].
        rewrite Hcat. rewrite concat_app. simpl.
        rewrite <- !app_assoc. reflexivity.
      * apply truthy_false in Ht. apply join_words_nil in Ht; [|assumption].
        subst g. rewrite (Hinit eq_refl) in *.
        destruct (IH [] [w])
          as (gs' & g' & Hrun & Hcat & Hne & Hg' & Hi' & Hf' & Hb');
          try assumption.
        { discriminate. }
        { constructor; [apply prefixes_fit_one | constructor]. }
        exists gs', g'. split; [exact Hrun|].
        split; [|repeat split; assumption].
        rewrite Hcat. reflexivity.
Qed.

Lemma wrap_text_greedy_groups (text : str) :
  exists groups : list (list str),
    wrap_text text font max_width = map (join space) groups
    /\ concat groups = split text
    /\ Forall (fun g => g <> []) groups
    /\ Forall (prefixes_fit font max_width) groups
    /\ breaks_forced font max_width groups.
Proof.
  rewrite wrap_text_loop_form.
  destruct (wrap_loop_greedy (split text) [] [])
    as (gs & g & Hrun & Hcat & Hne & Hg & Hi & Hf & Hb).
  { apply split_words. } { constructor. } { constructor. }
  { reflexivity. }
  { constructor; [|constructor]. intros k Hk. simpl in Hk. lia. }
  { exact I. }
  cbn [map join concat app] in Hrun, Hcat.
  change (wrap_loop font max_width (split text) wrap_init
          = (map (join space) gs, join space g)) in Hrun.
  rewrite Hrun.
  destruct (truthy (join space g)) eqn:Ht.
  - exists (gs ++ [g]). rewrite map_app. split; [reflexivity|]. split.
    + rewrite concat_app. simpl. now rewrite app_nil_r.
    + split; [|split; assumption].
      apply Forall_app. split; [assumption|].
      constructor; [|constructor]. intros ->. simpl in Ht. discriminate.
  - apply truthy_false in Ht. apply join_words_nil in Ht; [|assumption].
    subst g. rewrite (Hi eq_refl) in *. exists [].
    repeat split; try constructor. exact Hcat.
Qed.

(** Re-wrapping the join of a group that fits prefix by prefix. *)
Lemma wrap_loop_refill (rest : list str) :
  forall pre : list str,
    pre <> [] -> Forall is_word pre -> Forall is_word rest ->
    (forall k, (1 <= k <= length rest)%nat ->
       text_width font (join space (pre ++ firstn k rest)) <= max_width) ->
    wrap_loop font max_width rest ([], join space pre)
    = ([], join space (pre ++ rest)).
Proof.
  induction rest as [|w rest IH]; intros pre Hpre Hwords Hrest Hfit.
  - now rewrite app_nil_r.
  - inversion Hrest as [|? ? Hw Hrest']; subst.
    rewrite wrap_loop_cons. unfold wrap_step.
    assert (Hline : truthy (join space pre) = true).
    { apply truthy_true. intros H. apply Hpre.
      now apply join_words_nil. }
    rewrite eqb_nil, Hline. cbn [negb].
    rewrite <- join_snoc by assumption.
    pose proof (Hfit 1%nat ltac:(simpl; lia)) as H1. cbn [firstn] in H1.
    apply Z.leb_le in H1. rewrite H1.
    rewrite IH.
    + now rewrite <- app_assoc.
    + destruct pre; discriminate.
    + apply Forall_app. split; [assumption|]. now constructor.
    + assumption.
    + intros k Hk. rewrite <- app_assoc. apply (Hfit (S k)). simpl. lia.
Qed.

Lemma wrap_text_refill (g : list str) :
  g <> [] -> Forall is_word g -> prefixes_fit font max_width g ->
  wrap_text (join space g) font max_width = [join space g].
Proof.
  intros Hg Hwords Hfit. rewrite wrap_text_loop_form.
  rewrite split_join by assumption.
  destruct g as [|w rest]; [congruence|].
  inversion Hwords as [|? ? Hw Hrest]; subst.
  rewrite wrap_loop_cons.
  assert (Hfirst : wrap_step font max_width wrap_init w
                   = ([], join space [w])).
  { unfold wrap_step, wrap_init. change (eqb [] []) with true.
    cbn [truthy join]. destruct (text_width font w <=? max_width);
      reflexivity. }
  rewrite Hfirst.
  rewrite (wrap_loop_refill rest [w]).
  - cbn [app].
    assert (Ht : truthy (join space (w :: rest)) = true).
    { apply truthy_true. intros H. apply join_words_nil in H;
        [discriminate | assumption]. }
    now rewrite Ht.
  - discriminate.
  - now constructor.
  - assumption.
  - intros k Hk. apply (Hfit (S k)). simpl. lia.
Qed.

End GreedyWrap.

(** X4. The wrap is greedy: wherever a line is followed by another, the
    first word of the following line did not fit on the line before it:
    the line, a space and that word measure more than the maximum width. *)
Theorem wrap_text_breaks_forced (text : str) (font : Font) (max_width : Z)
    (before : list str) (a b : str) (following : list str) :
  wrap_text text font max_width = before ++ a :: b :: following ->
  exists w rest,
    split b = w :: rest
    /\ max_width < text_width font (a ++ space ++ w).
Proof.
  intros Hlines.
  destruct (wrap_text_greedy_groups font max_width text)
    as (groups & Hmap & Hcat & Hne & _ & Hbr).
  rewrite Hmap in Hlines.
  apply map_eq_app in Hlines.
  destruct Hlines as (gpre & gtail & -> & _ & Htail).
  apply map_eq_cons in Htail.
  destruct Htail as (ga & gtail' & -> & Ha & Htail).
  apply map_eq_cons in Htail.
  destruct Htail as (gb & gpost & -> & Hb & _).
  destruct (breaks_forced_at font max_width gpre ga gb gpost Hbr)
    as (w & rest & -> & Hgt).
  pose proof (split_words text) as Hwords. rewrite <- Hcat in Hwords.
  apply Forall_concat in Hwords. rewrite Forall_forall in Hwords.
  rewrite Forall_forall in Hne.
  assert (Hin_a : In ga (gpre ++ ga :: (w :: rest) :: gpost))
    by (apply in_or_app; right; now left).
  assert (Hin_b : In (w :: rest) (gpre ++ ga :: (w :: rest) :: gpost))
    by (apply in_or_app; right; right; now left).
  exists w, rest. split.
  - rewrite <- Hb. apply split_join. exact (Hwords _ Hin_b).
  - rewrite <- Ha. rewrite <- join_snoc; [exact Hgt|].
    exact (Hne _ Hin_a).
Qed.

Lemma wrap_text_breaks_forced_witness :
  wrap_text (lit "the quick  brown fox jumps") mono_font 100
  = [] ++ lit "the quick" :: lit "brown fox" :: [lit "jumps"]
  /\ exists w rest,
       split (lit "brown fox") = w :: rest
       /\ 100 < text_width mono_font (lit "the quick" ++ space ++ w).
Proof.
  split; [reflexivity|].
  apply (wrap_text_breaks_forced (lit "the quick  brown fox jumps")
           mono_font 100 [] (lit "the quick") (lit "brown fox")
           [lit "jumps"]).
  reflexivity.
Defined.

(** X5. Wrapping is stable: every line the wrapper produced, wrapped again
    with the same font and maximum width, stays that one line. *)
Theorem wrap_text_stable (text : str) (font : Font) (max_width : Z)
    (ln : str) :
  In ln (wrap_text text font max_width) ->
  wrap_text ln font max_width = [ln].
Proof.
  intros Hin.
  destruct (wrap_text_greedy_groups font max_width text)
    as (groups & Hmap & Hcat & Hne & Hfit & _).
  rewrite Hmap in Hin. apply in_map_iff in Hin.
  destruct Hin as (g & <- & Hg).
  pose proof (split_words text) as Hwords. rewrite <- Hcat in Hwords.
  apply Forall_concat in Hwords.
  rewrite Forall_forall in Hwords, Hne, Hfit.
  apply wrap_text_refill; [exact (Hne g Hg) | exact (Hwords g Hg)
                          | exact (Hfit g Hg)].
Qed.

Lemma wrap_text_stable_witness :
  In (lit "brown fox")
    (wrap_text (lit "the quick  brown fox jumps") mono_font 100)
  /\ wrap_text (lit "brown fox") mono_font 100 = [lit "brown fox"].
Proof.
  assert (Hin : In (lit "brown fox")
                  (wrap_text (lit "the quick  brown fox jumps")
                     mono_font 100))
    by (right; left; reflexivity).
  split; [exact Hin|].
  exact (wrap_text_stable (lit "the quick  brown fox jumps") mono_font 100
           (lit "brown fox") Hin).
Defined.

(** ** Multiline measurer *)

Lemma fold_max_from (xs : list Z) :
  forall m, 0 <= m -> fold_left Z.max xs m = Z.max m (fold_left Z.max xs 0).
Proof.
  induction xs as [|x xs IH]; intros m Hm; simpl; [lia|].
  rewrite (IH (Z.max m x)) by lia. rewrite (IH (Z.max 0 x)) by lia. lia.
Qed.

Lemma fold_max_le (xs : list Z) (b : Z) :
  forall m, m <= b -> Forall (fun x => x <= b) xs ->
            fold_left Z.max xs m <= b.
Proof.
  induction xs as [|x xs IH]; intros m Hm Hxs; simpl; [exact Hm|].
  inversion Hxs; subst. apply IH; [lia | assumption].
Qed.

Lemma sum_right_from (xs : list Z) (a : Z) :
  fold_right Z.add a xs = fold_right Z.add 0 xs + a.
Proof. induction xs as [|x xs IH]; simpl; lia. Qed.

(** X6. Measuring two non-empty blocks of lines one after the other: the
    width is the larger of the two widths, the height is the two heights
    plus one line spacing between the blocks, and the per-line heights are
    those of the first block followed by those of the second. *)
Theorem measure_multiline_app (l1 l2 : list str) (font : Font) (S : Z) :
  l1 <> [] -> l2 <> [] ->
  let '(w1, h1, hs1) := measure_multiline l1 font S in
  let '(w2, h2, hs2) := measure_multiline l2 font S in
  measure_multiline (l1 ++ l2) font S
  = (Z.max w1 w2, h1 + S + h2, hs1 ++ hs2).
Proof.
  intros H1 H2. rewrite !measure_multiline_eq.
  rewrite !map_app, fold_left_app, fold_right_app, length_app.
  rewrite fold_max_from by apply fold_max_ge.
  destruct l1 as [|a l1]; [congruence|].
  destruct l2 as [|b l2]; [congruence|].
  cbn [app]. f_equal. f_equal.
  rewrite sum_right_from. cbn [length]. lia.
Qed.

Lemma measure_multiline_app_witness :
  [lit "Hello"] <> [] /\ [lit "big"; lit "world"] <> []
  /\ measure_multiline ([lit "Hello"] ++ [lit "big"; lit "world"])
       mono_font 6
     = (50, 72, [20; 20; 20]).
Proof.
  split; [discriminate|]. split; [discriminate|].
  apply (measure_multiline_app [lit "Hello"] [lit "big"; lit "world"]
           mono_font 6); discriminate.
Defined.

(** X7. Whatever the font reports, the measured width is never negative and
    is at least the measured width of every line, and there is one measured
    height per line. *)
Theorem measure_multiline_bounds (lines : list str) (font : Font) (S : Z) :
  let '(w, h, line_heights) := measure_multiline lines font S in
  0 <= w
  /\ Forall (fun ln => text_width font ln <= w) lines
  /\ length line_heights = length lines.
Proof.
  rewrite measure_multiline_eq.
  destruct (fold_max_ge (map (text_width font) lines) 0) as [H0 Hall].
  split; [exact H0|]. split; [|apply length_map].
  rewrite Forall_map in Hall. exact Hall.
Qed.

(** ** Layout composer *)

Lemma wrap_text_no_words (text : str) (font : Font) (max_width : Z) :
  split text = [] -> wrap_text text font max_width = [].
Proof. intros H. rewrite wrap_text_loop_form, H. reflexivity. Qed.

Lemma wrap_text_line_ok_in (text : str) (font : Font) (max_width : Z)
    (ln : str) :
  In ln (wrap_text text font max_width) ->
  line_ok font max_width (split text) ln.
Proof.
  rewrite wrap_text_loop_form.
  pose proof (wrap_loop_line_ok font max_width (split text) (split text)
                [] [] (incl_refl _) (Forall_nil _) (or_introl eq_refl))
    as Hloop.
  change (@nil str, @nil char) with wrap_init in Hloop.
  revert Hloop.
  destruct (wrap_loop font max_width (split text) wrap_init)
    as [lines line].
  cbn [fst snd]. intros [Hlines Hline] Hin.
  rewrite Forall_forall in Hlines.
  destruct (truthy line) eqn:Ht.
  - apply in_app_or in Hin. destruct Hin as [Hin | [<- | []]].
    + now apply Hlines.
    + destruct Hline as [Hnil | Hok]; [|assumption].
      apply truthy_true in Ht. contradiction.
  - now apply Hlines.
Qed.

Lemma wrap_text_fits_words (text : str) (font : Font) (max_width : Z) :
  (forall w, In w (split text) -> text_width font w <= max_width) ->
  Forall (fun x => x <= max_width)
    (map (text_width font) (wrap_text text font max_width)).
Proof.
  intros Hwords. apply Forall_map. apply Forall_forall. intros ln Hin.
  destruct (wrap_text_line_ok_in text font max_width ln Hin)
    as [Hle | [Hw Hgt]]; [assumption|].
  specialize (Hwords ln Hw). lia.
Qed.

(** X8. With no word in the quote and nothing but whitespace in the author
    there is nothing to lay out: the layout has no line and size (0, 0),
    there is no bounding box, the hit test is false at every point and the
    clamp leaves the session as it is. *)
Theorem empty_layout_has_no_box (env : Env) (self : QuoteStudio) :
  split (quote self) = [] -> strip (author self) = [] ->
  (forall font max_width,
     quote_lines (compute_text_layout self font max_width) = []
     /\ author_block_lines (compute_text_layout self font max_width) = []
     /\ total_size (compute_text_layout self font max_width) = (0, 0))
  /\ current_bbox env self = None
  /\ (forall x y, point_in_text_bbox env self x y = false)
  /\ clamp_text_within env self = self.
Proof.
  intros Hq Ha.
  assert (Hlayout : forall font max_width,
             quote_lines (compute_text_layout self font max_width) = []
             /\ author_block_lines (compute_text_layout self font max_width)
                = []
             /\ total_size (compute_text_layout self font max_width)
                = (0, 0)).
  { intros font max_width. rewrite compute_text_layout_eq. cbv zeta.
    rewrite Ha. cbn [truthy].
    rewrite (wrap_text_no_words _ font max_width Hq).
    destruct (truthy (quote self)); repeat split. }
  assert (Hbox : current_bbox env self = None).
  { unfold current_bbox, compute_text_bbox.
    destruct (Hlayout (pick_style_font env self (font_size self))
                (text_max_width self (filtered_bg self)))
      as (_ & _ & ->). reflexivity. }
  split; [exact Hlayout|]. split; [exact Hbox|].
  unfold current_bbox in Hbox. split.
  - intros x y. unfold point_in_text_bbox. now rewrite Hbox.
  - unfold clamp_text_within. cbn [size]. now rewrite Hbox.
Qed.

Lemma empty_layout_has_no_box_witness :
  split (quote (demo_session (lit "  ") (lit " ") 64 (-5, 500))) = []
  /\ strip (author (demo_session (lit "  ") (lit " ") 64 (-5, 500))) = []
  /\ current_bbox demo_env (demo_session (lit "  ") (lit " ") 64 (-5, 500))
     = None
  /\ clamp_text_within demo_env
       (demo_session (lit "  ") (lit " ") 64 (-5, 500))
     = demo_session (lit "  ") (lit " ") 64 (-5, 500).
Proof.
  split; [reflexivity|]. split; [reflexivity|].
  destruct (empty_layout_has_no_box demo_env
              (demo_session (lit "  ") (lit " ") 64 (-5, 500))
              eq_refl eq_refl) as (_ & Hbox & _ & Hclamp).
  split; assumption.
Defined.

(** X9. When the maximum width is not negative and no word of the quote and
    no word of the marked author text is wider than it, the layout is at
    most that wide. *)
Theorem layout_width_bounded (self : QuoteStudio) (font : Font)
    (max_width : Z) :
  0 <= max_width ->
  (forall w, In w (split (quote self)) -> text_width font w <= max_width) ->
  (forall w, In w (split (author_marker ++ strip (author self))) ->
             text_width font w <= max_width) ->
  fst (total_size (compute_text_layout self font max_width)) <= max_width.
Proof.
  intros Hmw Hq Ha. rewrite compute_text_layout_eq. cbv zeta.
  cbn [total_size fst]. rewrite !measure_multiline_eq. cbn [fst].
  apply Z.max_lub.
  - apply fold_max_le; [assumption|].
    destruct (truthy (quote self)); [|constructor].
    now apply wrap_text_fits_words.
  - apply fold_max_le; [assumption|].
    destruct (truthy (strip (author self))); [|constructor].
    cbn [filter]. change (eqb [] []) with true. cbn [negb].
    rewrite filter_nonempty_lines by apply wrap_text_lines_nonempty.
    now apply wrap_text_fits_words.
Qed.

Lemma layout_width_bounded_witness :
  0 <= 180
  /\ fst (total_size
            (compute_text_layout
               (demo_session (lit "Hello world") (lit "Jane Doe") 64
                  (10, 10))
               mono_font 180)) <= 180.
Proof.
  split; [lia|].
  apply (layout_width_bounded
           (demo_session (lit "Hello world") (lit "Jane Doe") 64 (10, 10))
           mono_font 180).
  - lia.
  - intros w [<- | [<- | []]]; vm_compute; discriminate.
  - intros w [<- | [<- | [<- | []]]]; vm_compute; discriminate.
Defined.

(** ** Bounds clamper *)

Lemma clamp_text_within_eq (env : Env) (self : QuoteStudio)
    (x0 y0 x1 y1 : Z) :
  current_bbox env self = Some (x0, y0, x1, y1) ->
  clamp_text_within env self
  = set_text_pos
      (x0 + clamp_axis x0 x1 (width (base_image self)),
       y0 + clamp_axis y0 y1 (height (base_image self))) self.
Proof.
  intros Hbox.
  destruct (compute_text_bbox_shape _ _ _ _ _ _ _ _ Hbox)
    as (Hx0 & Hy0 & _).
  unfold clamp_text_within. unfold current_bbox in Hbox.
  cbn [size]. rewrite Hbox. cbv zeta.
  rewrite <- Hx0, <- Hy0. reflexivity.
Qed.

Lemma clamp_axis_inside (lo hi w : Z) :
  0 <= lo -> hi <= w -> clamp_axis lo hi w = 0.
Proof.
  intros Hlo Hhi. unfold clamp_axis. rewrite Z.gtb_ltb.
  destruct (Z.ltb_spec lo 0), (Z.ltb_spec w hi); lia.
Qed.

Lemma clamp_axis_fit (lo hi w : Z) :
  hi - lo <= w ->
  0 <= lo + clamp_axis lo hi w /\ hi + clamp_axis lo hi w <= w.
Proof.
  intros Hfit. unfold clamp_axis. rewrite Z.gtb_ltb.
  destruct (Z.ltb_spec lo 0), (Z.ltb_spec w hi);
    try destruct (w - hi <? _); lia.
Qed.

Lemma current_bbox_moved (env : Env) (self : QuoteStudio)
    (x0 y0 x1 y1 : Z) (p : Z * Z) :
  current_bbox env self = Some (x0, y0, x1, y1) ->
  current_bbox env (set_text_pos p self)
  = Some (fst p, snd p, fst p + (x1 - x0), snd p + (y1 - y0)).
Proof.
  intros Hbox.
  destruct (compute_text_bbox_shape _ _ _ _ _ _ _ _ Hbox)
    as (_ & _ & Hshape).
  unfold current_bbox. cbn [text_pos set_text_pos].
  rewrite compute_text_bbox_set_text_pos. apply Hshape.
Qed.

Lemma current_bbox_moved_none (env : Env) (self : QuoteStudio) (p : Z * Z) :
  current_bbox env self = None ->
  current_bbox env (set_text_pos p self) = None.
Proof.
  unfold current_bbox, compute_text_bbox.
  cbn [text_pos set_text_pos filtered_bg font_size].
  change (pick_style_font env (set_text_pos p self))
    with (pick_style_font env self).
  change (text_max_width (set_text_pos p self))
    with (text_max_width self).
  change (compute_text_layout (set_text_pos p self))
    with (compute_text_layout self).
  destruct (total_size _) as [tw th].
  destruct ((tw =? 0) || (th =? 0)); [reflexivity | discriminate].
Qed.

(** X10. Clamping is idempotent on a session whose text box, if there is
    one, is no wider and no higher than the canvas: a second clamp changes
    nothing. *)
Theorem clamp_text_within_idempotent (env : Env) (self : QuoteStudio) :
  match current_bbox env self with
  | Some (x0, y0, x1, y1) =>
      x1 - x0 <= width (base_image self)
      /\ y1 - y0 <= height (base_image self)
  | None => True
  end ->
  clamp_text_within env (clamp_text_within env self)
  = clamp_text_within env self.
Proof.
  destruct (current_bbox env self) as [[[[x0 y0] x1] y1]|] eqn:Hbox.
  - intros [Hw Hh].
    rewrite (clamp_text_within_eq env self x0 y0 x1 y1 Hbox).
    pose proof (clamp_axis_fit x0 x1 _ Hw) as [Hx_lo Hx_hi].
    pose proof (clamp_axis_fit y0 y1 _ Hh) as [Hy_lo Hy_hi].
    set (p := (x0 + clamp_axis x0 x1 (width (base_image self)),
               y0 + clamp_axis y0 y1 (height (base_image self)))).
    rewrite (clamp_text_within_eq env (set_text_pos p self)
               (fst p) (snd p) (fst p + (x1 - x0)) (snd p + (y1 - y0))
               (current_bbox_moved env self x0 y0 x1 y1 p Hbox)).
    cbn [base_image set_text_pos].
    rewrite !clamp_axis_inside by (unfold p; cbn [fst snd]; lia).
    rewrite !Z.add_0_r. destruct p; reflexivity.
  - intros _. unfold clamp_text_within at 2. unfold current_bbox in Hbox.
    cbn [size]. rewrite Hbox.
    unfold clamp_text_within. cbn [size]. now rewrite Hbox.
Qed.

Lemma clamp_text_within_idempotent_witness :
  text_pos (clamp_text_within demo_env
              (clamp_text_within demo_env
                 (demo_session (lit "Hello world") [] 64 (150, -10))))
  = (90, 0).
Proof.
  rewrite (clamp_text_within_idempotent demo_env
             (demo_session (lit "Hello world") [] 64 (150, -10))).
  - vm_compute. reflexivity.
  - vm_compute. split; discriminate.
Defined.

(** X11. Where the corrections disagree the far edge wins: a box whose right
    edge is beyond the canvas ends with its right edge on the canvas's
    right edge, whatever that does to its left edge, and likewise for the
    bottom edge; a box that only sticks out on the left or the top ends with
    that edge at 0. *)
Theorem clamp_text_within_far_edge_wins (env : Env) (self : QuoteStudio)
    (x0 y0 x1 y1 : Z) :
  current_bbox env self = Some (x0, y0, x1, y1) ->
  exists x0' y0' x1' y1',
    current_bbox env (clamp_text_within env self)
    = Some (x0', y0', x1', y1')
    /\ x1' - x0' = x1 - x0 /\ y1' - y0' = y1 - y0
    /\ (width (base_image self) < x1 -> x1' = width (base_image self))
    /\ (height (base_image self) < y1 -> y1' = height (base_image self))
    /\ (x0 < 0 -> x1 <= width (base_image self) -> x0' = 0)
    /\ (y0 < 0 -> y1 <= height (base_image self) -> y0' = 0).
Proof.
  intros Hbox.
  rewrite (clamp_text_within_eq env self x0 y0 x1 y1 Hbox).
  rewrite (current_bbox_moved env self x0 y0 x1 y1 _ Hbox).
  cbn [fst snd]. do 4 eexists. split; [reflexivity|].
  unfold clamp_axis. rewrite !Z.gtb_ltb.
  destruct (Z.ltb_spec x0 0), (Z.ltb_spec y0 0),
    (Z.ltb_spec (width (base_image self)) x1),
    (Z.ltb_spec (height (base_image self)) y1);
    repeat match goal with
           | |- context [if ?c then _ else _] => destruct c
           end;
    repeat split; lia.
Qed.

(** A box wider than the canvas: its right edge is brought to the canvas
    edge. *)
Lemma clamp_text_within_far_edge_wins_witness :
  current_bbox demo_env
    (demo_session (lit "Supercalifragilisticexpialidocious") [] 64 (-5, 10))
  = Some (-5, 10, 335, 30)
  /\ exists x0' y0' x1' y1',
       current_bbox demo_env
         (clamp_text_within demo_env
            (demo_session (lit "Supercalifragilisticexpialidocious") []
               64 (-5, 10)))
       = Some (x0', y0', x1', y1')
       /\ x1' = 200.
Proof.
  assert (Hbox : current_bbox demo_env
                   (demo_session (lit "Supercalifragilisticexpialidocious")
                      [] 64 (-5, 10))
                 = Some (-5, 10, 335, 30)) by (vm_compute; reflexivity).
  split; [exact Hbox|].
  destruct (clamp_text_within_far_edge_wins demo_env
              (demo_session (lit "Supercalifragilisticexpialidocious") []
                 64 (-5, 10))
              (-5) 10 335 30 Hbox)
    as (x0' & y0' & x1' & y1' & Hbox' & _ & _ & Hright & _).
  exists x0', y0', x1', y1'. split; [exact Hbox'|].
  apply Hright. vm_compute. reflexivity.
Defined.

(** ** Style filter *)

Lemma apply_style_None (lib : PIL) (bg : Image) :
  apply_style lib bg (lit "None") = inr (convert_RGB bg).
Proof. reflexivity. Qed.

(** X12. For the styles "None" and "Noir" and every name outside the seven,
    the style filter calls none of the enhancement and filter operations
    (contrast, colour, brightness, blur, unsharp mask, blend): its outcome
    is the same whatever those operations do. *)
Theorem apply_style_without_filters (lib lib' : PIL) (bg : Image)
    (style_name : str) :
  style_name = lit "None" \/ style_name = lit "Noir"
  \/ ~ In style_name STYLE_NAMES ->
  apply_style lib bg style_name = apply_style lib' bg style_name.
Proof.
  intros [-> | [-> | Hnot]].
  - now rewrite !apply_style_None.
  - now rewrite !apply_style_Noir.
  - now rewrite !apply_style_unknown.
Qed.

(** The Epic style does depend on them; Noir does not. *)
Lemma apply_style_without_filters_witness :
  apply_style raising_pil demo_pixels (lit "Epic")
  <> apply_style still_pil demo_pixels (lit "Epic")
  /\ apply_style raising_pil demo_pixels (lit "Noir")
     = apply_style still_pil demo_pixels (lit "Noir").
Proof.
  split; [vm_compute; discriminate|].
  apply (apply_style_without_filters raising_pil still_pil demo_pixels
           (lit "Noir")).
  right. left. reflexivity.
Defined.

Lemma rgb2l_range (p : Z * Z * Z) : 0 <= rgb2l p < 256.
Proof.
  unfold rgb2l. destruct p as [[r g] b]. apply Z.mod_pos_bound. lia.
Qed.

Lemma rgb2l_of_grey (l : Z) : 0 <= l < 256 -> rgb2l (l, l, l) = l.
Proof.
  intros Hl. unfold rgb2l. rewrite Z.shiftr_div_pow2 by lia.
  change (2 ^ 16) with 65536.
  replace (l * 19595 + l * 38470 + l * 7471 + 32768)
    with (l * 65536 + 32768) by lia.
  rewrite Z.div_add_l by lia.
  change (32768 / 65536) with 0. rewrite Z.add_0_r.
  now apply Z.mod_small.
Qed.

(** X13. The raster the Noir style returns is achromatic: it is an RGB
    raster of the size of the input in which every pixel has equal red,
    green and blue values, each in 0..255. *)
Theorem noir_is_achromatic (lib : PIL) (bg : Image) :
  exists out,
    apply_style lib bg (lit "Noir") = inr out
    /\ size out = size bg
    /\ achromatic out.
Proof.
  exists (convert_RGB (grayscale (convert_RGB bg))).
  split; [apply apply_style_Noir|]. split; [reflexivity|].
  unfold achromatic.
  destruct bg as [w h [px | px | px]]; unfold convert_RGB, grayscale;
    cbn [pixels width height]; eexists; (split; [reflexivity|]);
    rewrite map_map; apply Forall_map; apply Forall_forall; intros p _;
    unfold l2rgb; pose proof (rgb2l_range p); repeat split; lia.
Qed.

(** X14. The Noir style leaves an achromatic raster as it is. *)
Theorem noir_keeps_grey (lib : PIL) (bg : Image) :
  achromatic bg -> apply_style lib bg (lit "Noir") = inr bg.
Proof.
  intros (px & Hpx & Hgrey). rewrite apply_style_Noir. f_equal.
  destruct bg as [w h data]. cbn [pixels] in Hpx. subst data.
  unfold convert_RGB, grayscale. cbn [pixels width height]. do 2 f_equal.
  rewrite map_map. rewrite <- (map_id px) at 2. apply map_ext_in.
  intros [[r g] b] Hin. rewrite Forall_forall in Hgrey.
  specialize (Hgrey _ Hin). cbn beta iota in Hgrey.
  destruct Hgrey as (-> & -> & Hb).
  unfold l2rgb. now rewrite rgb2l_of_grey.
Qed.

Lemma noir_keeps_grey_witness :
  achromatic grey_pixels
  /\ apply_style still_pil grey_pixels (lit "Noir") = inr grey_pixels.
Proof.
  assert (Hgrey : achromatic grey_pixels).
  { eexists. split; [reflexivity|].
    repeat constructor; (lia || discriminate). }
  split; [exact Hgrey|].
  exact (noir_keeps_grey still_pil grey_pixels Hgrey).
Defined.

(** X15. The channel swap of the Cyberpunk style is an involution that keeps
    size and mode: swapping red and blue twice gives the raster back. *)
Theorem swap_red_blue_involutive (img : Image) :
  swap_red_blue (swap_red_blue img) = img
  /\ size (swap_red_blue img) = size img
  /\ img_mode (swap_red_blue img) = img_mode img.
Proof.
  split; [|split; [reflexivity | apply swap_red_blue_mode]].
  destruct img as [w h [px | px | px]]; unfold swap_red_blue;
    cbn [pixels width height]; try reflexivity.
  do 2 f_equal. rewrite map_map. rewrite <- (map_id px) at 2.
  apply map_ext. intros [[r g] b]. reflexivity.
Qed.

(** ** The recompute pass *)

Lemma compose_final_state (env : Env) (shadow : bool) (self : QuoteStudio) :
  snd (compose_final env shadow self) = self
  \/ exists b, snd (compose_final env shadow self) = set_text_bbox b self.
Proof.
  unfold compose_final, bind, get, lift, modify, ret.
  destruct (apply_style _ _ _) as [e | bg]; [now left|].
  destruct (draw_text_with_shadow _ _ _ _ _ _ _)
    as [e | [out [[[x0 y0] x1] y1]]]; [now left|].
  right. eexists. reflexivity.
Qed.

Lemma update_preview_pixmap_state (env : Env) (self : QuoteStudio) :
  snd (update_preview_pixmap env self) = self
  \/ exists pix, snd (update_preview_pixmap env self) = setPixmap pix self.
Proof.
  unfold update_preview_pixmap, bind, get, lift, modify, ret.
  destruct (pil_to_qpixmap _ _) as [e | pix]; [now left|].
  destruct ((width pix =? 0) || (height pix =? 0)); [now left|].
  right. eexists. reflexivity.
Qed.

Lemma same_inputs_refl (s : QuoteStudio) : same_inputs s s.
Proof. repeat split. Qed.

Lemma same_inputs_trans (s1 s2 s3 : QuoteStudio) :
  same_inputs s1 s2 -> same_inputs s2 s3 -> same_inputs s1 s3.
Proof.
  unfold same_inputs. intros H12 H23.
  repeat match goal with H : _ /\ _ |- _ => destruct H end.
  repeat split; congruence.
Qed.

Lemma compose_final_inputs (env : Env) (shadow : bool) (s : QuoteStudio) :
  same_inputs s (snd (compose_final env shadow s)).
Proof.
  destruct (compose_final_state env shadow s) as [-> | [b ->]];
    repeat split.
Qed.

Lemma update_preview_pixmap_inputs (env : Env) (s : QuoteStudio) :
  same_inputs s (snd (update_preview_pixmap env s)).
Proof.
  destruct (update_preview_pixmap_state env s) as [-> | [pix ->]];
    repeat split.
Qed.

Lemma handled_inputs (e : exn) (s : QuoteStudio) :
  same_inputs s (snd (handled e s)).
Proof. unfold handled. destruct (is_Exception e); repeat split. Qed.

Lemma recompute_inputs (env : Env) (s : QuoteStudio) :
  same_inputs s (snd (recompute env s)).
Proof.
  rewrite recompute_run.
  destruct (apply_style _ _ _) as [e | bg]; [apply handled_inputs|].
  pose proof (compose_final_inputs env true (set_filtered_bg bg s)) as Hc.
  destruct (compose_final env true (set_filtered_bg bg s))
    as [[e | out] s2]; cbn [snd] in Hc.
  - eapply same_inputs_trans; [|apply handled_inputs].
    eapply same_inputs_trans; [|exact Hc]. repeat split.
  - pose proof (update_preview_pixmap_inputs env (set_result_image out s2))
      as Hu.
    destruct (update_preview_pixmap env (set_result_image out s2))
      as [[e | u] s3]; cbn [snd] in Hu |- *.
    + eapply same_inputs_trans; [|apply handled_inputs].
      eapply same_inputs_trans; [|exact Hu].
      eapply same_inputs_trans; [|apply (same_inputs_refl)].
      eapply same_inputs_trans; [|exact Hc]. repeat split.
    + eapply same_inputs_trans; [|exact Hu].
      eapply same_inputs_trans; [|exact Hc]. repeat split.
Qed.

(** A pass only propagates what [except Exception] lets through. *)
Lemma recompute_raises (env : Env) (s : QuoteStudio) (ex : exn) :
  fst (recompute env s) = inl ex -> is_Exception ex = false.
Proof.
  rewrite recompute_run. unfold handled.
  destruct (apply_style _ _ _) as [e | bg].
  - destruct (is_Exception e) eqn:He; cbn [fst]; intros H;
      [discriminate | congruence].
  - destruct (compose_final env true _) as [[e | out] s2].
    + destruct (is_Exception e) eqn:He; cbn [fst]; intros H;
        [discriminate | congruence].
    + destruct (update_preview_pixmap env _) as [[e | u] s3].
      * destruct (is_Exception e) eqn:He; cbn [fst]; intros H;
          [discriminate | congruence].
      * cbn [fst]. discriminate.
Qed.

(** X16. A recompute pass, whether it succeeds, fails or propagates, never
    changes its inputs: the canvas, the texts, the style, the colour, the
    font size, the anchor and the margin are what they were. *)
Theorem recompute_keeps_inputs (env : Env) (s : QuoteStudio) :
  same_inputs s (snd (recompute env s)).
Proof. apply recompute_inputs. Qed.






(** X18. When the filter and the rendering succeed and only the conversion
    to a pixmap raises, the exception is caught and printed, the new raster
    is already the displayed one, and the pixmap on screen is still the
    previous one. *)
Theorem recompute_pixmap_failure (env : Env) (s : QuoteStudio)
    (bg out : Image) (s2 : QuoteStudio) (e : exn) :
  apply_style (pil env) (base_image s) (current_style s) = inr bg ->
  compose_final env true (set_filtered_bg bg s) = (inr out, s2) ->
  pil_to_qpixmap (pil env) out = inl e ->
  is_Exception e = true ->
  fst (recompute env s) = inr tt
  /\ result_image (snd (recompute env s)) = out
  /\ preview_pixmap (snd (recompute env s)) = preview_pixmap s
  /\ stdout (snd (recompute env s)) = stdout s ++ [e].
Proof.
  intros Hstyle Hcompose Hpix He.
  destruct (compose_final_frame env true (set_filtered_bg bg s))
    as (_ & Hkeep & Hout).
  rewrite Hcompose in Hkeep, Hout.
  cbn [snd preview_pixmap stdout set_filtered_bg] in Hkeep, Hout.
  rewrite recompute_run, Hstyle, Hcompose.
  unfold update_preview_pixmap, bind, get, lift.
  cbn [result_image set_result_image]. rewrite Hpix.
  unfold handled. rewrite He. cbn [fst snd].
  repeat split; cbn [preview_pixmap stdout print_error set_result_image];
    congruence.
Qed.

Lemma recompute_pixmap_failure_witness :
  fst (recompute no_pixmap_env
         (demo_session (lit "Hello world") [] 64 (10, 10))) = inr tt
  /\ preview_pixmap
       (snd (recompute no_pixmap_env
               (demo_session (lit "Hello world") [] 64 (10, 10)))) = None
  /\ stdout
       (snd (recompute no_pixmap_env
               (demo_session (lit "Hello world") [] 64 (10, 10))))
     = [MemoryError].
Proof.
  destruct (compose_final no_pixmap_env true
              (set_filtered_bg demo_image
                 (demo_session (lit "Hello world") [] 64 (10, 10))))
    as [r s2] eqn:Hcompose.
  assert (Hr : r = inr demo_image).
  { apply (f_equal fst) in Hcompose. cbn [fst] in Hcompose.
    rewrite <- Hcompose. reflexivity. }
  subst r.
  destruct (recompute_pixmap_failure no_pixmap_env
              (demo_session (lit "Hello world") [] 64 (10, 10))
              demo_image demo_image s2 MemoryError
              eq_refl Hcompose eq_refl eq_refl)
    as (Hret & _ & Hpix & Hout).
  split; [exact Hret|]. split; [exact Hpix | exact Hout].
Defined.

(** X19. The shadow is a matter of the Epic and Noir styles only: for any
    other style the preview rendering, which asks for the shadow, is the
    rendering without it, raster and state alike. *)
Theorem shadow_only_for_epic_and_noir (env : Env) (s : QuoteStudio) :
  current_style s <> lit "Epic" -> current_style s <> lit "Noir" ->
  compose_final env true s = compose_final env false s.
Proof.
  intros HE HN. unfold compose_final, bind, get.
  destruct (eqb (current_style s) (lit "Epic")) eqn:E1.
  { apply eqb_true_iff in E1. contradiction. }
  destruct (eqb (current_style s) (lit "Noir")) eqn:E2.
  { apply eqb_true_iff in E2. contradiction. }
  reflexivity.
Qed.

Lemma shadow_only_for_epic_and_noir_witness :
  compose_final demo_env true
    (demo_session (lit "Hello world") [] 64 (10, 10))
  = compose_final demo_env false
      (demo_session (lit "Hello world") [] 64 (10, 10)).
Proof.
  apply (shadow_only_for_epic_and_noir demo_env
           (demo_session (lit "Hello world") [] 64 (10, 10)));
    vm_compute; discriminate.
Defined.

(** ** Renderer *)

Lemma draw_line_cursor (lib : PIL) (x : Z) (font : Font)
    (color : Z * Z * Z) (draw_shadow : bool) (layout : Layout)
    (acc : result (Image * Z)) (ln : str) (img' : Image) (yy' : Z) :
  draw_line lib x font color draw_shadow layout acc ln = inr (img', yy') ->
  exists img yy,
    acc = inr (img, yy)
    /\ yy' = yy + (if eqb ln [] then spacer_h layout
                   else text_height font ln + line_spacing layout).
Proof.
  unfold draw_line. destruct acc as [e | [img yy]]; cbn [rbind];
    [discriminate|].
  destruct (eqb ln []).
  - intros H. injection H as _ Hyy. exists img, yy. now split.
  - destruct (if draw_shadow then _ else _) as [e | img1]; cbn [rbind];
      [discriminate|].
    destruct (draw_text _ _ _ _ _ _) as [e | img2]; cbn [rbind];
      [discriminate|].
    intros H. injection H as _ Hyy. exists img, yy. now split.
Qed.

Lemma draw_loop_cursor (lib : PIL) (x : Z) (font : Font)
    (color : Z * Z * Z) (draw_shadow : bool) (layout : Layout)
    (lines : list str) :
  forall (acc : result (Image * Z)) (img' : Image) (yy' : Z),
    fold_left (draw_line lib x font color draw_shadow layout) lines acc
    = inr (img', yy') ->
    exists img yy,
      acc = inr (img, yy)
      /\ yy' = yy + cursor_advance font layout lines.
Proof.
  induction lines as [|ln lines IH]; intros acc img' yy' H.
  - simpl in H. subst acc. exists img', yy'. split; [reflexivity|].
    unfold cursor_advance. simpl. lia.
  - simpl in H. apply IH in H. destruct H as (img1 & yy1 & H1 & Hyy).
    apply draw_line_cursor in H1. destruct H1 as (img & yy & -> & Hyy1).
    exists img, yy. split; [reflexivity|].
    unfold cursor_advance in *. cbn [map fold_right]. lia.
Qed.

Lemma draw_lines_cursor (lib : PIL) (x : Z) (font : Font)
    (color : Z * Z * Z) (draw_shadow : bool) (layout : Layout)
    (img : Image) (lines : list str) (start_y : Z) (img' : Image)
    (yy' : Z) :
  draw_lines lib x font color draw_shadow layout img lines start_y
  = inr (img', yy') ->
  yy' = start_y + cursor_advance font layout lines.
Proof.
  unfold draw_lines. intros H. apply draw_loop_cursor in H.
  destruct H as (img0 & yy0 & H0 & Hyy). injection H0 as _ <-. exact Hyy.
Qed.

Lemma cursor_advance_text (font : Font) (layout : Layout)
    (lines : list str) :
  Forall (fun ln => ln <> []) lines ->
  cursor_advance font layout lines
  = snd (fst (measure_multiline lines font (line_spacing layout)))
    + line_spacing layout * count_block lines.
Proof.
  intros Hne.
  assert (H : cursor_advance font layout lines
              = fold_right Z.add 0 (map (text_height font) lines)
                + line_spacing layout * Z.of_nat (length lines)).
  { unfold cursor_advance.
    induction Hne as [|ln lines Hln _ IH]; [simpl; lia|].
    cbn [map fold_right length]. rewrite IH.
    rewrite eqb_nil. apply truthy_true in Hln. rewrite Hln. cbn [negb].
    lia. }
  rewrite H, measure_multiline_eq. cbn [fst snd]. unfold count_block.
  destruct lines as [|l0 lines]; cbn [nonempty length]; [simpl; lia|].
  lia.
Qed.

Lemma layout_fields (self : QuoteStudio) (font : Font) (max_width : Z) :
  let layout := compute_text_layout self font max_width in
  quote_lines layout
  = (if truthy (quote self) then wrap_text (quote self) font max_width
     else [])
  /\ author_block_lines layout
     = (if truthy (strip (author self))
        then [] :: wrap_text (author_marker ++ strip (author self)) font
                     max_width
        else [])
  /\ snd (total_size layout)
     = snd (fst (measure_multiline (quote_lines layout) font
                   (line_spacing layout)))
       + (if nonempty (author_block_lines layout) then spacer_h layout
          else 0)
       + snd (fst (measure_multiline
                     (filter (fun ln => negb (eqb ln []))
                        (author_block_lines layout))
                     font (line_spacing layout))).
Proof.
  cbv zeta. rewrite compute_text_layout_eq. cbv zeta.
  cbn [quote_lines author_block_lines total_size line_spacing spacer_h snd].
  repeat split.
Qed.

Lemma split_aux_started (s cur : str) : cur <> [] -> split_aux cur s <> [].
Proof.
  revert cur. induction s as [|c s IH]; intros cur Hcur; simpl.
  - destruct cur; [congruence | discriminate].
  - destruct (isspace c).
    + destruct cur; [congruence | discriminate].
    + apply IH. destruct cur; discriminate.
Qed.

Lemma split_started (c : char) (s : str) :
  isspace c = false -> split (c :: s) <> [].
Proof.
  intros Hc. unfold split. cbn [split_aux]. rewrite Hc.
  apply split_aux_started. discriminate.
Qed.

Lemma author_lines_nonempty (a : str) (font : Font) (max_width : Z) :
  wrap_text (author_marker ++ a) font max_width <> [].
Proof.
  intros H.
  destruct (wrap_text_groups font max_width (author_marker ++ a))
    as (groups & Hlines & Hcat & Hne).
  rewrite Hlines in H. apply map_eq_nil in H. subst groups.
  cbn [concat] in Hcat. symmetry in Hcat. revert Hcat.
  apply (split_started 226%N). reflexivity.
Qed.

(** The cursor moves over both blocks by the total height of the layout
    plus one line spacing for each block that has a line. *)
Lemma layout_advance (self : QuoteStudio) (font : Font) (max_width : Z) :
  let layout := compute_text_layout self font max_width in
  cursor_advance font layout (quote_lines layout)
  + cursor_advance font layout (author_block_lines layout)
  = snd (total_size layout)
    + line_spacing layout
      * (count_block (quote_lines layout)
         + count_block (author_block_lines layout)).
Proof.
  cbv zeta.
  destruct (layout_fields self font max_width) as (Hq & Ha & Ht).
  cbv zeta in Hq, Ha, Ht.
  set (layout := compute_text_layout self font max_width) in *.
  rewrite Ht. clear Ht.
  assert (Hql : Forall (fun ln => ln <> []) (quote_lines layout)).
  { rewrite Hq. destruct (truthy (quote self)); [|constructor].
    apply wrap_text_lines_nonempty. }
  rewrite (cursor_advance_text font layout _ Hql).
  rewrite Ha. destruct (truthy (strip (author self))).
  - pose proof (wrap_text_lines_nonempty
                  (author_marker ++ strip (author self)) font max_width)
      as Hal.
    pose proof (author_lines_nonempty (strip (author self)) font max_width)
      as Hne.
    cbn [filter]. change (eqb [] []) with true. cbn [negb nonempty].
    rewrite (filter_nonempty_lines _ Hal).
    unfold cursor_advance at 1. cbn [map fold_right].
    change (eqb [] []) with true. cbv iota.
    fold (cursor_advance font layout
            (wrap_text (author_marker ++ strip (author self)) font
               max_width)).
    rewrite (cursor_advance_text font layout _ Hal).
    destruct (wrap_text (author_marker ++ strip (author self)) font
                max_width); [congruence|].
    unfold count_block. cbn [nonempty]. lia.
  - cbn [filter nonempty]. rewrite (measure_multiline_eq []).
    unfold cursor_advance at 1. unfold count_block.
    cbn [map fold_right fst snd nonempty]. lia.
Qed.

(** X20. When the drawing of the quote block from [y] and then of the
    author block succeeds, the cursor ends at [y] plus the total height of
    the layout plus one line spacing for each block that has a line: the
    renderer advances one line spacing further per block than the measured
    height accounts for. *)
Theorem render_cursor (lib : PIL) (self : QuoteStudio) (font : Font)
    (max_width x y : Z) (color : Z * Z * Z) (draw_shadow : bool)
    (img img1 img2 : Image) (c1 c2 : Z) :
  let layout := compute_text_layout self font max_width in
  draw_lines lib x font color draw_shadow layout img (quote_lines layout) y
  = inr (img1, c1) ->
  (if nonempty (author_block_lines layout)
   then draw_lines lib x font color draw_shadow layout img1
          (author_block_lines layout) c1
   else inr (img1, c1)) = inr (img2, c2) ->
  c2 = y + snd (total_size layout)
       + line_spacing layout
         * (count_block (quote_lines layout)
            + count_block (author_block_lines layout)).
Proof.
  cbv zeta. intros Hq Ha.
  pose proof (layout_advance self font max_width) as Hadv. cbv zeta in Hadv.
  apply draw_lines_cursor in Hq.
  destruct (author_block_lines (compute_text_layout self font max_width))
    as [|l0 ls] eqn:Hal; cbn [nonempty] in Ha.
  - injection Ha as _ <-. unfold cursor_advance at 2 in Hadv.
    simpl in Hadv. lia.
  - apply draw_lines_cursor in Ha. lia.
Qed.

Lemma render_cursor_witness :
  draw_lines still_pil 10 mono_font (255, 255, 255) false
    (compute_text_layout
       (demo_session (lit "Hello world") (lit "Jane Doe") 64 (10, 10))
       mono_font 180)
    demo_pixels
    (quote_lines
       (compute_text_layout
          (demo_session (lit "Hello world") (lit "Jane Doe") 64 (10, 10))
          mono_font 180)) 10
  = inr (demo_pixels, 46)
  /\ 94 = 10 + 52 + 16 * (1 + 1).
Proof.
  assert (H1 : draw_lines still_pil 10 mono_font (255, 255, 255) false
                 (compute_text_layout
                    (demo_session (lit "Hello world") (lit "Jane Doe") 64
                       (10, 10)) mono_font 180)
                 demo_pixels
                 (quote_lines
                    (compute_text_layout
                       (demo_session (lit "Hello world") (lit "Jane Doe")
                          64 (10, 10)) mono_font 180)) 10
               = inr (demo_pixels, 46)) by reflexivity.
  split; [exact H1|].
  exact (render_cursor still_pil
           (demo_session (lit "Hello world") (lit "Jane Doe") 64 (10, 10))
           mono_font 180 10 10 (255, 255, 255) false
           demo_pixels demo_pixels demo_pixels 46 94 H1 eq_refl).
Defined.

Lemma cursor_advance_app (font : Font) (layout : Layout)
    (l1 l2 : list str) :
  cursor_advance font layout (l1 ++ l2)
  = cursor_advance font layout l1 + cursor_advance font layout l2.
Proof.
  unfold cursor_advance. rewrite map_app, fold_right_app.
  rewrite sum_right_from. reflexivity.
Qed.

(** X21. With both a quote and an author the reported box is one line
    spacing short: when the drawing succeeds, the last author line is drawn
    at a cursor such that the cursor plus the height of that line is the
    bottom of the box, [y] plus the total height, plus the line spacing. *)
Theorem author_line_below_box (lib : PIL) (self : QuoteStudio)
    (font : Font) (max_width x y : Z) (color : Z * Z * Z)
    (draw_shadow : bool) (img img1 img2 : Image) (c1 c_last : Z)
    (pre : list str) (last_line : str) :
  let layout := compute_text_layout self font max_width in
  quote_lines layout <> [] ->
  author_block_lines layout = pre ++ [last_line] ->
  draw_lines lib x font color draw_shadow layout img (quote_lines layout) y
  = inr (img1, c1) ->
  draw_lines lib x font color draw_shadow layout img1 pre c1
  = inr (img2, c_last) ->
  last_line <> []
  /\ c_last + text_height font last_line
     = y + snd (total_size layout) + line_spacing layout.
Proof.
  cbv zeta. intros Hqne Hsplit Hq Hpre.
  pose proof (layout_advance self font max_width) as Hadv. cbv zeta in Hadv.
  destruct (layout_fields self font max_width) as (_ & Ha & _).
  cbv zeta in Ha.
  apply draw_lines_cursor in Hq. apply draw_lines_cursor in Hpre.
  assert (Hlast : last_line <> []).
  { rewrite Hsplit in Ha.
    destruct (truthy (strip (author self))).
    - pose proof (wrap_text_lines_nonempty
                    (author_marker ++ strip (author self)) font max_width)
        as Hal.
      pose proof (author_lines_nonempty (strip (author self)) font
                    max_width) as Hne.
      revert Ha Hal Hne.
      generalize (wrap_text (author_marker ++ strip (author self)) font
                    max_width).
      intros al Ha Hal Hne.
      destruct pre as [|p pre].
      + cbn [app] in Ha. injection Ha as _ Ha. symmetry in Ha.
        contradiction.
      + cbn [app] in Ha. injection Ha as _ Ha. rewrite <- Ha in Hal.
        apply Forall_app in Hal. destruct Hal as [_ Hal].
        now inversion Hal.
    - destruct pre; discriminate. }
  split; [exact Hlast|].
  rewrite Hsplit in Hadv. rewrite cursor_advance_app in Hadv.
  unfold cursor_advance at 3 in Hadv. cbn [map fold_right] in Hadv.
  rewrite eqb_nil in Hadv. apply truthy_true in Hlast.
  rewrite Hlast in Hadv. cbn [negb] in Hadv.
  unfold count_block in Hadv.
  destruct (quote_lines (compute_text_layout self font max_width));
    [congruence|].
  destruct pre; cbn [app nonempty] in Hadv; lia.
Qed.

Lemma author_line_below_box_witness :
  current_bbox demo_env
    (demo_session (lit "Hello world") (lit "Jane Doe") 64 (10, 10))
  = Some (10, 10, 130, 62)
  /\ author_marker ++ lit "Jane Doe" <> []
  /\ 58 + text_height mono_font (author_marker ++ lit "Jane Doe") = 62 + 16.
Proof.
  split; [vm_compute; reflexivity|].
  apply (author_line_below_box still_pil
           (demo_session (lit "Hello world") (lit "Jane Doe") 64 (10, 10))
           mono_font 180 10 10 (255, 255, 255) false
           demo_pixels demo_pixels demo_pixels 46 58
           [[]] (author_marker ++ lit "Jane Doe")).
  - vm_compute; discriminate.
  - reflexivity.
  - reflexivity.
  - reflexivity.
Defined.

(** ** Keys and the mouse *)

Lemma clamp_text_pos_inside (env : Env) (s : QuoteStudio) :
  box_inside env s -> text_pos (clamp_text_within env s) = text_pos s.
Proof.
  unfold box_inside.
  destruct (current_bbox env s) as [[[[x0 y0] x1] y1]|] eqn:Hbox.
  - intros (Hx0 & Hx1 & Hy0 & Hy1). cbn [size fst snd] in Hx1, Hy1.
    rewrite (clamp_text_within_eq env s x0 y0 x1 y1 Hbox).
    cbn [text_pos set_text_pos].
    rewrite !clamp_axis_inside by assumption. rewrite !Z.add_0_r.
    destruct (compute_text_bbox_shape _ _ _ _ _ _ _ _ Hbox)
      as (-> & -> & _).
    now destruct (text_pos s).
  - intros _. unfold clamp_text_within. unfold current_bbox in Hbox.
    cbn [size]. now rewrite Hbox.
Qed.

Lemma do_recompute_text_pos (env : Env) (w : UI.Widget) :
  text_pos (UI.studio (snd (UI.do_recompute env w)))
  = text_pos (UI.studio w).
Proof.
  unfold UI.do_recompute.
  pose proof (recompute_inputs env (UI.studio w)) as H.
  destruct (recompute env (UI.studio w)) as [r s]. cbn [snd] in *.
  cbn [UI.studio UI.with_studio]. apply H.
Qed.

Lemma do_recompute_drag (env : Env) (w : UI.Widget) :
  UI.dragging (snd (UI.do_recompute env w)) = UI.dragging w
  /\ UI.drag_offset (snd (UI.do_recompute env w)) = UI.drag_offset w
  /\ UI.dialogs (snd (UI.do_recompute env w)) = UI.dialogs w.
Proof.
  unfold UI.do_recompute.
  destruct (recompute env (UI.studio w)) as [r s]. repeat split.
Qed.

Lemma do_recompute_raises (env : Env) (w : UI.Widget) (ex : exn) :
  fst (UI.do_recompute env w) = inl ex -> is_Exception ex = false.
Proof.
  unfold UI.do_recompute.
  pose proof (recompute_raises env (UI.studio w) ex) as H.
  destruct (recompute env (UI.studio w)) as [r s]. exact H.
Qed.

(** X22. An arrow key moves the anchor by exactly one pixel in its
    direction, by ten with Shift, whenever the text box at the new anchor is
    inside the canvas (or there is no box); any other key, wherever the box
    is, leaves the widget as it is and renders nothing. *)
Theorem key_press_moves_anchor (env : Env) (e : UI.QKeyEvent)
    (w : UI.Widget) :
  let step := if UI.shift e then 10 else 1 in
  let target :=
    (fst (text_pos (UI.studio w)) + step * fst (key_delta (UI.key e)),
     snd (text_pos (UI.studio w)) + step * snd (key_delta (UI.key e))) in
  (box_inside env (set_text_pos target (UI.studio w)) ->
   text_pos (UI.studio (snd (UI.keyPressEvent env e w))) = target)
  /\ (UI.key e = UI.Key_Other -> UI.keyPressEvent env e w = (inr tt, w)).
Proof.
  cbv zeta. split.
  - intros Hin. unfold UI.keyPressEvent.
    destruct (text_pos (UI.studio w)) as [x y] eqn:Hpos.
    cbn [fst snd] in *.
    destruct (UI.key e); cbn [key_delta fst snd] in *;
      try (rewrite do_recompute_text_pos; cbn [UI.studio UI.with_studio];
           match goal with
           | |- text_pos (clamp_text_within env (set_text_pos ?p _)) = ?q =>
               replace q with p in * by (f_equal; lia)
           end;
           rewrite clamp_text_pos_inside by assumption; reflexivity).
    cbn [snd]. rewrite Hpos. f_equal; lia.
  - intros Hkey. unfold UI.keyPressEvent.
    destruct (text_pos (UI.studio w)) as [x y]. rewrite Hkey. reflexivity.
Qed.

Lemma key_press_moves_anchor_witness :
  box_inside demo_env
    (set_text_pos (0, 10) (demo_session (lit "Hello world") [] 64 (10, 10)))
  /\ text_pos
       (UI.studio
          (snd (UI.keyPressEvent demo_env
                  (UI.mkKeyEvent UI.Key_Left true)
                  (demo_widget (lit "Hello world") [] (10, 10)))))
     = (0, 10)
  /\ UI.keyPressEvent demo_env (UI.mkKeyEvent UI.Key_Other false)
       (demo_widget (lit "Hello world") [] (500, -500))
     = (inr tt, demo_widget (lit "Hello world") [] (500, -500)).
Proof.
  assert (Hin : box_inside demo_env
                  (set_text_pos (0, 10)
                     (demo_session (lit "Hello world") [] 64 (10, 10)))).
  { vm_compute. repeat split; discriminate. }
  split; [exact Hin|]. split.
  - apply (proj1 (key_press_moves_anchor demo_env
                    (UI.mkKeyEvent UI.Key_Left true)
                    (demo_widget (lit "Hello world") [] (10, 10))) Hin).
  - apply (proj2 (key_press_moves_anchor demo_env
                    (UI.mkKeyEvent UI.Key_Other false)
                    (demo_widget (lit "Hello world") [] (500, -500)))).
    reflexivity.
Defined.

(** X23. A press starts a drag exactly when it is a left-button press at a
    point of the text box, borders included; it then records the offset of
    the point from the anchor and leaves the session as it is.  Any other
    press changes nothing. *)
Theorem mouse_press_starts_drag (env : Env) (e : UI.QMouseEvent)
    (w : UI.Widget) (x0 y0 x1 y1 : Z) :
  current_bbox env (UI.studio w) = Some (x0, y0, x1, y1) ->
  exists started,
    fst (UI.on_mouse_press env e w) = inr started
    /\ (started = true
        <-> UI.button e = UI.LeftButton
            /\ x0 <= fst (UI.img_pt e) <= x1
            /\ y0 <= snd (UI.img_pt e) <= y1)
    /\ (started = true ->
        UI.dragging (snd (UI.on_mouse_press env e w)) = true
        /\ UI.drag_offset (snd (UI.on_mouse_press env e w))
           = Some (fst (UI.img_pt e) - x0, snd (UI.img_pt e) - y0)
        /\ UI.studio (snd (UI.on_mouse_press env e w)) = UI.studio w)
    /\ (started = false -> snd (UI.on_mouse_press env e w) = w).
Proof.
  intros Hbox.
  destruct (compute_text_bbox_shape _ _ _ _ _ _ _ _ Hbox)
    as (Hx0 & Hy0 & _).
  unfold UI.on_mouse_press, point_in_text_bbox.
  unfold current_bbox in Hbox. rewrite Hbox.
  destruct (UI.img_pt e) as [px py]. cbn [fst snd].
  destruct (text_pos (UI.studio w)) as [tx ty]. cbn [fst snd] in *.
  subst tx ty.
  destruct (UI.button e); cbn [UI.is_left].
  - destruct ((x0 <=? px) && (px <=? x1) && ((y0 <=? py) && (py <=? y1)))
      eqn:Hhit.
    + exists true. cbn [fst snd]. split; [reflexivity|].
      rewrite !andb_true_iff, !Z.leb_le in Hhit.
      repeat split; try tauto; discriminate.
    + exists false. cbn [fst snd]. split; [reflexivity|].
      split; [|split; [discriminate | reflexivity]].
      split; [discriminate|]. intros (_ & Hx & Hy).
      assert (Ht : (x0 <=? px) && (px <=? x1)
                   && ((y0 <=? py) && (py <=? y1)) = true).
      { rewrite !andb_true_iff, !Z.leb_le. tauto. }
      congruence.
  - exists false. cbn [fst snd]. split; [reflexivity|].
    split; [|split; [discriminate | reflexivity]].
    split; [discriminate|]. intros (H & _). discriminate.
Qed.

Lemma mouse_press_starts_drag_witness :
  current_bbox demo_env
    (UI.studio (demo_widget (lit "Hello world") [] (10, 10)))
  = Some (10, 10, 120, 30)
  /\ exists started,
       fst (UI.on_mouse_press demo_env
              (UI.mkMouseEvent UI.LeftButton (120, 30))
              (demo_widget (lit "Hello world") [] (10, 10)))
       = inr started
       /\ started = true.
Proof.
  assert (Hbox : current_bbox demo_env
                   (UI.studio (demo_widget (lit "Hello world") [] (10, 10)))
                 = Some (10, 10, 120, 30)) by (vm_compute; reflexivity).
  split; [exact Hbox|].
  destruct (mouse_press_starts_drag demo_env
              (UI.mkMouseEvent UI.LeftButton (120, 30))
              (demo_widget (lit "Hello world") [] (10, 10))
              10 10 120 30 Hbox) as (started & Hfst & Hiff & _).
  exists started. split; [exact Hfst|].
  apply Hiff. cbn [UI.button UI.img_pt fst snd]. repeat split; lia.
Defined.

(** X24. A drag carries the text with the pointer: after a press that
    started a drag at a point p, a move to a point q puts the anchor where
    it was plus q - p, whenever the text box there is inside the canvas (or
    there is no box), and the drag goes on. *)
Theorem drag_translates_anchor (env : Env) (w w1 : UI.Widget)
    (px py qx qy : Z) (b : UI.MouseButton) :
  UI.on_mouse_press env (UI.mkMouseEvent UI.LeftButton (px, py)) w
  = (inr true, w1) ->
  let target :=
    (fst (text_pos (UI.studio w)) + (qx - px),
     snd (text_pos (UI.studio w)) + (qy - py)) in
  box_inside env (set_text_pos target (UI.studio w)) ->
  text_pos
    (UI.studio (snd (UI.on_mouse_move env (UI.mkMouseEvent b (qx, qy)) w1)))
  = target
  /\ UI.dragging (snd (UI.on_mouse_move env (UI.mkMouseEvent b (qx, qy)) w1))
     = true.
Proof.
  unfold UI.on_mouse_press. cbn [UI.button UI.is_left UI.img_pt].
  destruct (point_in_text_bbox env (UI.studio w) px py);
    [|discriminate].
  destruct (text_pos (UI.studio w)) as [tx ty] eqn:Hpos.
  intros H. injection H as <-. cbv zeta. cbn [fst snd].
  intros Hin. unfold UI.on_mouse_move.
  cbn [UI.dragging UI.drag_offset UI.img_pt UI.studio].
  replace (qx - (px - tx)) with (tx + (qx - px)) by lia.
  replace (qy - (py - ty)) with (ty + (qy - py)) by lia.
  match goal with
  | |- context [UI.do_recompute env ?w0] =>
      pose proof (do_recompute_text_pos env w0) as Htp;
      pose proof (do_recompute_drag env w0) as (Hdr & _ & _);
      destruct (UI.do_recompute env w0) as [r w']
  end.
  cbn [snd UI.studio UI.with_studio UI.dragging] in *.
  split; [|exact Hdr].
  rewrite Htp. now apply clamp_text_pos_inside.
Qed.

Lemma drag_translates_anchor_witness :
  text_pos
    (UI.studio
       (snd (UI.on_mouse_move demo_env
               (UI.mkMouseEvent UI.LeftButton (45, 32))
               (snd (UI.on_mouse_press demo_env
                       (UI.mkMouseEvent UI.LeftButton (15, 12))
                       (demo_widget (lit "Hello world") [] (10, 10)))))))
  = (40, 30).
Proof.
  apply (drag_translates_anchor demo_env
           (demo_widget (lit "Hello world") [] (10, 10))
           (snd (UI.on_mouse_press demo_env
                   (UI.mkMouseEvent UI.LeftButton (15, 12))
                   (demo_widget (lit "Hello world") [] (10, 10))))
           15 12 45 32 UI.LeftButton).
  - reflexivity.
  - vm_compute. repeat split; discriminate.
Defined.

Lemma drag_coherent_same (w w' : UI.Widget) :
  UI.dragging w' = UI.dragging w ->
  UI.drag_offset w' = UI.drag_offset w ->
  drag_coherent w -> drag_coherent w'.
Proof. unfold drag_coherent. intros -> ->. trivial. Qed.

Lemma do_recompute_coherent (env : Env) (w : UI.Widget) :
  drag_coherent w -> drag_coherent (snd (UI.do_recompute env w)).
Proof.
  destruct (do_recompute_drag env w) as (Hd & Ho & _).
  now apply drag_coherent_same.
Qed.

Lemma after_coherent (env : Env) (w : UI.Widget) (ev : UI.Event) :
  drag_coherent w -> drag_coherent (UI.after env w ev).
Proof.
  intros Hw. destruct ev; cbn [UI.after].
  - unfold UI.on_mouse_press.
    destruct (UI.is_left _); [|exact Hw].
    destruct (UI.img_pt e) as [px py].
    destruct (point_in_text_bbox _ _ _ _); [|exact Hw].
    destruct (text_pos _) as [tx ty]. intros _. discriminate.
  - unfold UI.on_mouse_move.
    destruct (UI.dragging w) eqn:Hd; [|exact Hw].
    destruct (UI.img_pt e) as [px py].
    destruct (UI.drag_offset w) as [[ox oy]|] eqn:Ho; [|exact Hw].
    match goal with
    | |- context [UI.do_recompute env ?w0] =>
        pose proof (do_recompute_coherent env w0) as Hc;
        destruct (UI.do_recompute env w0) as [r w']
    end.
    cbn [snd] in *. apply Hc.
    unfold drag_coherent. cbn [UI.dragging UI.drag_offset UI.with_studio].
    now rewrite Ho.
  - unfold UI.on_mouse_release.
    destruct (UI.is_left _ && UI.dragging w); [|exact Hw].
    match goal with
    | |- context [UI.do_recompute env ?w0] =>
        pose proof (do_recompute_coherent env w0) as Hc;
        destruct (UI.do_recompute env w0) as [r w']
    end.
    cbn [snd] in *. apply Hc. intros H. discriminate.
  - exact Hw.
  - unfold UI.keyPressEvent.
    destruct (text_pos _) as [x y].
    destruct (UI.key e); cbn [snd]; try exact Hw;
      apply do_recompute_coherent; exact Hw.
  - apply do_recompute_coherent. exact Hw.
  - apply do_recompute_coherent. exact Hw.
  - apply do_recompute_coherent. exact Hw.
  - unfold UI.on_pick_color. destruct color; [|exact Hw].
    apply do_recompute_coherent. exact Hw.
  - unfold UI.on_load_image.
    destruct (truthy path); [|exact Hw].
    destruct (image_open path) as [ex | opened].
    + destruct (is_Exception ex); exact Hw.
    + match goal with
      | |- context [UI.do_recompute env ?w0] =>
          pose proof (do_recompute_coherent env w0 Hw) as Hc;
          destruct (UI.do_recompute env w0) as [[ex | u] w']
      end; cbn [snd] in *; [|exact Hc].
      destruct (is_Exception ex); exact Hc.
Qed.

Lemma init_coherent (env : Env) : drag_coherent (UI.init env).
Proof.
  unfold UI.init. apply do_recompute_coherent. intros H. discriminate.
Qed.

Lemma run_coherent (env : Env) (evs : list UI.Event) :
  forall w, drag_coherent w ->
            drag_coherent (fold_left (UI.after env) evs w).
Proof.
  induction evs as [|ev evs IH]; intros w Hw; [exact Hw|].
  simpl. apply IH. now apply after_coherent.
Qed.

(** X25. In every state the widget reaches from its construction through
    mouse, key, resize, edit and load events, the offset of the drag has
    been assigned whenever the widget is dragging: dragging is set by a
    press only, together with the offset, so a mouse move never finds the
    attribute missing. *)
Theorem drag_offset_set_while_dragging (env : Env) (evs : list UI.Event) :
  UI.dragging (fold_left (UI.after env) evs (UI.init env)) = true ->
  exists offset,
    UI.drag_offset (fold_left (UI.after env) evs (UI.init env))
    = Some offset.
Proof.
  pose proof (run_coherent env evs (UI.init env) (init_coherent env)) as Hw.
  intros Hd. specialize (Hw Hd).
  destruct (UI.drag_offset _) as [offset|]; [now exists offset|].
  congruence.
Qed.

Lemma drag_offset_set_while_dragging_witness :
  UI.dragging
    (fold_left (UI.after demo_env)
       [UI.TextChanged (lit "Hello") [];
        UI.MouseButtonPress (UI.mkMouseEvent UI.LeftButton (65, 65));
        UI.MouseMove (UI.mkMouseEvent UI.LeftButton (70, 72))]
       (UI.init demo_env)) = true
  /\ exists offset,
       UI.drag_offset
         (fold_left (UI.after demo_env)
            [UI.TextChanged (lit "Hello") [];
             UI.MouseButtonPress (UI.mkMouseEvent UI.LeftButton (65, 65));
             UI.MouseMove (UI.mkMouseEvent UI.LeftButton (70, 72))]
            (UI.init demo_env)) = Some offset.
Proof.
  assert (Hd : UI.dragging
                 (fold_left (UI.after demo_env)
                    [UI.TextChanged (lit "Hello") [];
                     UI.MouseButtonPress
                       (UI.mkMouseEvent UI.LeftButton (65, 65));
                     UI.MouseMove (UI.mkMouseEvent UI.LeftButton (70, 72))]
                    (UI.init demo_env)) = true) by reflexivity.
  split; [exact Hd|].
  exact (drag_offset_set_while_dragging demo_env
           [UI.TextChanged (lit "Hello") [];
            UI.MouseButtonPress (UI.mkMouseEvent UI.LeftButton (65, 65));
            UI.MouseMove (UI.mkMouseEvent UI.LeftButton (70, 72))] Hd).
Defined.

(** A widget set to dragging without a press is where the attribute would
    be missing. *)
Example mouse_move_without_offset :
  fst (UI.on_mouse_move demo_env (UI.mkMouseEvent UI.LeftButton (5, 5))
         (UI.mkWidget (demo_session (lit "Hi") [] 64 (10, 10)) true true
            None []))
  = inl UI.AttributeError.
Proof. reflexivity. Qed.

(** X26. A load that is cancelled changes nothing; a load whose file cannot
    be opened is reported in a dialog and leaves the session, canvas
    included, exactly as it was. *)
Theorem load_failure_keeps_session (env : Env)
    (image_open : str -> result Image) (path : str) (w : UI.Widget) :
  (path = [] -> UI.on_load_image env image_open path w = (inr tt, w))
  /\ forall ex,
       path <> [] -> image_open path = inl ex -> is_Exception ex = true ->
       fst (UI.on_load_image env image_open path w) = inr tt
       /\ UI.studio (snd (UI.on_load_image env image_open path w))
          = UI.studio w
       /\ UI.dialogs (snd (UI.on_load_image env image_open path w))
          = UI.dialogs w ++ [ex].
Proof.
  split.
  - intros ->. reflexivity.
  - intros ex Hpath Hopen Hex. unfold UI.on_load_image.
    apply truthy_true in Hpath. rewrite Hpath, Hopen, Hex.
    repeat split.
Qed.



(** ** Font resolution *)

Lemma dict_get_miss {V} (d : list (str * V)) (key : str) (default : V) :
  ~ In key (map fst d) -> dict_get d key default = default.
Proof.
  induction d as [|[k v] d IH]; intros Hnot; [reflexivity|].
  cbn [dict_get]. destruct (eqb k key) eqn:E.
  - apply eqb_true_iff in E. exfalso. apply Hnot. now left.
  - apply IH. intros H. apply Hnot. now right.
Qed.

(** X28. A style name that is not a key of the font preference table falls
    back to the preferences of "None": the font picked for it is the font
    picked for the style "None" at the same size. *)
Theorem pick_style_font_fallback (env : Env) (s : QuoteStudio) (sz : Z) :
  ~ In (current_style s) STYLE_NAMES ->
  pick_style_font env s sz
  = pick_style_font env (set_current_style (lit "None") s) sz.
Proof.
  intros Hnot. unfold pick_style_font.
  cbn [current_style set_current_style].
  rewrite (dict_get_miss STYLE_FONT_PREFS (current_style s)) by exact Hnot.
  reflexivity.
Qed.

Lemma pick_style_font_fallback_witness :
  pick_style_font (mkEnv still_pil (fun prefs _ =>
                     mkFont (fun _ => (0, 0, Z.of_nat (length prefs), 0))))
    (set_current_style (lit "Sepia")
       (demo_session (lit "Hello") [] 64 (10, 10))) 64
  = pick_style_font (mkEnv still_pil (fun prefs _ =>
                       mkFont (fun _ => (0, 0, Z.of_nat (length prefs), 0))))
      (set_current_style (lit "None")
         (set_current_style (lit "Sepia")
            (demo_session (lit "Hello") [] 64 (10, 10)))) 64.
Proof.
  apply (pick_style_font_fallback
           (mkEnv still_pil (fun prefs _ =>
              mkFont (fun _ => (0, 0, Z.of_nat (length prefs), 0))))
           (set_current_style (lit "Sepia")
              (demo_session (lit "Hello") [] 64 (10, 10))) 64).
  vm_compute. intuition discriminate.
Defined.

Section FindFontProperties.

Variable lower : str -> str.
Variable FONT_FILES : list (str * str).
Variable truetype : str -> Z -> result Font.
Variable load_default : result Font.

Lemma try_preferred_unloadable (names : list str) (size : Z) :
  (forall k v, In (k, v) FONT_FILES ->
     exists e, truetype v size = inl e /\ is_Exception e = true) ->
  Fonts.try_preferred lower FONT_FILES truetype names size = inr None.
Proof.
  intros Hbad. induction names as [|name rest IH]; [reflexivity|].
  cbn [Fonts.try_preferred].
  destruct (map snd (filter _ FONT_FILES)) as [|c cs] eqn:Hc; [exact IH|].
  assert (Hin : In c (map snd FONT_FILES)).
  { assert (H : In c (c :: cs)) by now left.
    rewrite <- Hc in H. apply in_map_iff in H.
    destruct H as ([k v] & <- & Hf). apply filter_In in Hf.
    apply in_map_iff. exists (k, v). split; [reflexivity | apply Hf]. }
  apply in_map_iff in Hin. destruct Hin as ([k v] & <- & Hkv).
  destruct (Hbad k v Hkv) as (e & He & Hex). cbn [snd].
  rewrite He, Hex. exact IH.
Qed.

Lemma try_generic_unloadable (generic : str) (items : list (str * str))
    (size : Z) :
  (forall k v, In (k, v) items ->
     exists e, truetype v size = inl e /\ is_Exception e = true) ->
  Fonts.try_generic lower truetype generic items size = inr None.
Proof.
  induction items as [|[k v] items IH]; intros Hbad; [reflexivity|].
  cbn [Fonts.try_generic].
  assert (IH' : Fonts.try_generic lower truetype generic items size
                = inr None).
  { apply IH. intros k' v' H. apply (Hbad k' v'). now right. }
  destruct (Fonts.contains _ k); [|exact IH'].
  destruct (Hbad k v (or_introl eq_refl)) as (e & He & Hex).
  rewrite He, Hex. exact IH'.
Qed.

Lemma try_generics_unloadable (generics : list str) (size : Z) :
  (forall k v, In (k, v) FONT_FILES ->
     exists e, truetype v size = inl e /\ is_Exception e = true) ->
  Fonts.try_generics lower FONT_FILES truetype generics size = inr None.
Proof.
  intros Hbad. induction generics as [|g rest IH]; [reflexivity|].
  cbn [Fonts.try_generics].
  rewrite (try_generic_unloadable g FONT_FILES size Hbad). exact IH.
Qed.

Lemma load_default_retry :
  match load_default with
  | inr f => inr f
  | inl e => if is_Exception e then load_default else inl e
  end = load_default.
Proof.
  destruct load_default as [e | f] eqn:H; [|reflexivity].
  destruct (is_Exception e); reflexivity.
Qed.

Lemma try_preferred_catches (names : list str) (size : Z) :
  (forall path e, truetype path size = inl e -> is_Exception e = true) ->
  exists r,
    Fonts.try_preferred lower FONT_FILES truetype names size = inr r.
Proof.
  intros Hexn. induction names as [|name rest IH]; [now exists None|].
  cbn [Fonts.try_preferred].
  destruct (map snd (filter _ FONT_FILES)) as [|c cs]; [exact IH|].
  destruct (truetype c size) as [e | f] eqn:Ht; [|now exists (Some f)].
  now rewrite (Hexn c e Ht).
Qed.

Lemma try_generic_catches (generic : str) (items : list (str * str))
    (size : Z) :
  (forall path e, truetype path size = inl e -> is_Exception e = true) ->
  exists r, Fonts.try_generic lower truetype generic items size = inr r.
Proof.
  intros Hexn. induction items as [|[k v] items IH]; [now exists None|].
  cbn [Fonts.try_generic]. destruct (Fonts.contains _ k); [|exact IH].
  destruct (truetype v size) as [e | f] eqn:Ht; [|now exists (Some f)].
  now rewrite (Hexn v e Ht).
Qed.

Lemma try_generics_catches (generics : list str) (size : Z) :
  (forall path e, truetype path size = inl e -> is_Exception e = true) ->
  exists r,
    Fonts.try_generics lower FONT_FILES truetype generics size = inr r.
Proof.
  intros Hexn. induction generics as [|g rest IH]; [now exists None|].
  cbn [Fonts.try_generics].
  destruct (try_generic_catches g FONT_FILES size Hexn) as ([f|] & ->);
    [now exists (Some f) | exact IH].
Qed.

End FindFontProperties.

(** X29. Font resolution swallows the failures of font files: when loading
    a file raises nothing but instances of Exception, [find_font] raises
    only if the built-in default font cannot be loaded, and then raises
    what loading the default raises. *)
Theorem find_font_raises_only_default (lower : str -> str)
    (FONT_FILES : list (str * str)) (truetype : str -> Z -> result Font)
    (load_default : result Font) (preferred_names : list str) (size : Z)
    (e : exn) :
  (forall path e', truetype path size = inl e' -> is_Exception e' = true) ->
  Fonts.find_font lower FONT_FILES truetype load_default preferred_names size
  = inl e ->
  load_default = inl e.
Proof.
  intros Hexn. unfold Fonts.find_font.
  destruct (try_preferred_catches lower FONT_FILES truetype
              preferred_names size Hexn) as ([f|] & ->); [discriminate|].
  destruct (try_generics_catches lower FONT_FILES truetype Fonts.GENERIC
              size Hexn) as ([f|] & ->); [discriminate|].
  rewrite load_default_retry. trivial.
Qed.

Lemma find_font_raises_only_default_witness :
  Fonts.find_font (fun s => s) [(lit "arial.ttf", lit "/fonts/arial.ttf")]
    (fun _ _ => inl ValueError) (inl MemoryError) [lit "Arial"] 64
  = inl MemoryError
  /\ @inl exn Font MemoryError = inl MemoryError.
Proof.
  assert (H : Fonts.find_font (fun s => s)
                [(lit "arial.ttf", lit "/fonts/arial.ttf")]
                (fun _ _ => inl ValueError) (inl MemoryError)
                [lit "Arial"] 64
              = inl MemoryError) by reflexivity.
  split; [exact H|].
  apply (find_font_raises_only_default (fun s => s)
           [(lit "arial.ttf", lit "/fonts/arial.ttf")]
           (fun _ _ => inl ValueError) (inl MemoryError)
           [lit "Arial"] 64 MemoryError); [|exact H].
  intros path e' He'. injection He' as <-. reflexivity.
Defined.

(** X30. When no font file of the system can be loaded (each raises an
    instance of Exception, or there is no file at all) whatever names are
    preferred, [find_font] is the built-in default font. *)
Theorem find_font_default (lower : str -> str)
    (FONT_FILES : list (str * str)) (truetype : str -> Z -> result Font)
    (load_default : result Font) (preferred_names : list str) (size : Z) :
  (forall k v, In (k, v) FONT_FILES ->
     exists e, truetype v size = inl e /\ is_Exception e = true) ->
  Fonts.find_font lower FONT_FILES truetype load_default preferred_names size
  = load_default.
Proof.
  intros Hbad. unfold Fonts.find_font.
  rewrite (try_preferred_unloadable lower FONT_FILES truetype
             preferred_names size Hbad).
  rewrite (try_generics_unloadable lower FONT_FILES truetype Fonts.GENERIC
             size Hbad).
  apply load_default_retry.
Qed.

Lemma find_font_default_witness :
  Fonts.find_font (fun s => s) [(lit "arial.ttf", lit "/fonts/arial.ttf")]
    (fun _ _ => inl ValueError) (inr mono_font) [lit "Arial"] 64
  = inr mono_font.
Proof.
  apply (find_font_default (fun s => s)
           [(lit "arial.ttf", lit "/fonts/arial.ttf")]
           (fun _ _ => inl ValueError) (inr mono_font) [lit "Arial"] 64).
  intros k v _. exists ValueError. split; reflexivity.
Defined.

Lemma load_failure_keeps_session_witness :
  fst (UI.on_load_image demo_env (fun _ => inl ValueError)
         (lit "broken.png") (demo_widget (lit "Hello world") [] (10, 10)))
  = inr tt
  /\ UI.studio
       (snd (UI.on_load_image demo_env (fun _ => inl ValueError)
               (lit "broken.png")
               (demo_widget (lit "Hello world") [] (10, 10))))
     = demo_session (lit "Hello world") [] 64 (10, 10)
  /\ UI.dialogs
       (snd (UI.on_load_image demo_env (fun _ => inl ValueError)
               (lit "broken.png")
               (demo_widget (lit "Hello world") [] (10, 10))))
     = [ValueError].
Proof.
  destruct (load_failure_keeps_session demo_env (fun _ => inl ValueError)
              (lit "broken.png")
              (demo_widget (lit "Hello world") [] (10, 10)))
    as [_ Hfail].
  apply (Hfail ValueError); [discriminate | reflexivity | reflexivity].
Defined.
